(** * multi_elo: team / season / tournament qualification and initial ratings

    A shallow embedding of [src/team_season.py] and [src/fetch_and_save.py],
    followed by the properties of the code.

    Conventions of the embedding.
    - A pandas DataFrame is the list of its rows, in row order; a column is
      the list of that field over the rows.
    - Text cells (team, tournament, season labels, scores) are [string]s:
      Python [str] values whose characters have code points below 256, one
      [ascii] per character. On these, comparing bytewise is Python's
      comparison by code point. Text with characters of code point 256 or
      more is not in the model.
    - Integer cells ([num_rounds], the floor, round identifiers) are
      unbounded [Z].
    - Ratings are exact rationals [Q] where pandas holds binary floats; a
      missing cell (NaN) is [None]. Missing cells are only those the code
      itself creates (left joins).
    - Python exceptions are values of [Py.exception]; a function that can
      raise returns [Py.result].
    - A file system is a finite map from path texts to CSV tables, held
      as typed rows: how [read_csv] and [to_csv] turn text into cells and
      back, writes that fail, and two texts that name one file are not in
      the model. *)

From Stdlib Require Import ZArith QArith Qround String Ascii.
From stdpp Require Import base option list sorting gmap strings pretty.

Local Open Scope Z_scope.

(** ** Python builtins used by the sources *)

Module Py.

Inductive exception :=
| FileNotFoundError (msg : string)
| KeyError (column : string)
| ValueError
| IndexError.

Inductive result (A : Type) :=
| Ok (a : A)
| Raise (e : exception).
Arguments Ok {A} a.
Arguments Raise {A} e.

#[global] Instance result_ret : MRet result := @Ok.

#[global] Instance result_bind : MBind result := λ A B f m,
  match m with Ok a => f a | Raise e => Raise e end.

Definition raises {A} (m : result A) : Prop := ∃ e, m = Raise e.

(** [str.isspace] on one character, the whitespace that [strip] removes:
    TAB, LF, VT, FF, CR, FS, GS, RS, US, SPACE, NEL (133) and the
    no-break space (160). *)
Definition isspace (c : ascii) : bool :=
  let n := N_of_ascii c in
  ((9 <=? n) && (n <=? 13) || (28 <=? n) && (n <=? 32)
   || (n =? 133) || (n =? 160))%N.

Fixpoint lstrip (s : string) : string :=
  match s with
  | EmptyString => EmptyString
  | String c s' => if isspace c then lstrip s' else s
  end.

Fixpoint rstrip (s : string) : string :=
  match s with
  | EmptyString => EmptyString
  | String c s' =>
      match rstrip s' with
      | EmptyString => if isspace c then EmptyString else String c EmptyString
      | t => String c t
      end
  end.

(** [s.strip()] *)
Definition strip (s : string) : string := rstrip (lstrip s).

(** [s.split(sep)] for a one-character separator: never the empty list. *)
Fixpoint split (sep : ascii) (s : string) : list string :=
  match s with
  | EmptyString => [EmptyString]
  | String c s' =>
      if Ascii.eqb c sep then EmptyString :: split sep s'
      else match split sep s' with
           | p :: ps => String c p :: ps
           | [] => [String c EmptyString]
           end
  end.

Definition digit (c : ascii) : option Z :=
  let n := N_of_ascii c in
  if ((48 <=? n) && (n <=? 57))%N then Some (Z.of_N n - 48) else None.

(** The digit part of an integer literal: decimal digits, single
    underscores allowed between two digits. *)
Fixpoint int_digits (acc : Z) (after_digit : bool) (s : string) : option Z :=
  match s with
  | EmptyString => if after_digit then Some acc else None
  | String c s' =>
      match digit c with
      | Some d => int_digits (10 * acc + d) true s'
      | None =>
          if Ascii.eqb c "_" && after_digit then int_digits acc false s'
          else None
      end
  end.

(** The whitespace [int] skips around a literal: that of [isspace] but
    for FS, GS, RS and US. *)
Definition int_space (c : ascii) : bool :=
  let n := N_of_ascii c in
  ((9 <=? n) && (n <=? 13) || (n =? 32) || (n =? 133) || (n =? 160))%N.

Fixpoint int_lstrip (s : string) : string :=
  match s with
  | EmptyString => EmptyString
  | String c s' => if int_space c then int_lstrip s' else s
  end.

Fixpoint int_rstrip (s : string) : string :=
  match s with
  | EmptyString => EmptyString
  | String c s' =>
      match int_rstrip s' with
      | EmptyString => if int_space c then EmptyString else String c EmptyString
      | t => String c t
      end
  end.

(** The integer a string denotes for [int(s)]: surrounding whitespace is
    ignored, then an optional sign and the digits. Among the characters
    of code point below 256 the decimal digits are 0 to 9. *)
Definition int_literal (s : string) : option Z :=
  match int_rstrip (int_lstrip s) with
  | String "-" r => Z.opp <$> int_digits 0 false r
  | String "+" r => int_digits 0 false r
  | r => int_digits 0 false r
  end.

(** [int(s)]: a string that is no integer literal is a [ValueError]. *)
Definition int (s : string) : result Z :=
  match int_literal s with
  | Some z => Ok z
  | None => Raise ValueError
  end.

(** [l[i]] *)
Definition getitem {A} (l : list A) (i : nat) : result A :=
  match l !! i with
  | Some x => Ok x
  | None => Raise IndexError
  end.

End Py.

Import Py.

(** ** Orderings used by pandas' sort and group-by

    A three-way comparison with the laws of a strict total order. *)

Class Comparator {A} (cmp : A → A → comparison) := {
  cmp_antisym a b : cmp a b = CompOpp (cmp b a);
  cmp_eq a b : cmp a b = Eq → a = b;
  cmp_lt_trans a b c : cmp a b = Lt → cmp b c = Lt → cmp a c = Lt;
}.

(** Lexicographic comparison of pairs: the second component breaks ties. *)
Definition lex_compare {A B} (cmpA : A → A → comparison)
    (cmpB : B → B → comparison) (x y : A * B) : comparison :=
  match cmpA x.1 y.1 with
  | Eq => cmpB x.2 y.2
  | c => c
  end.

(** [a <= b] for the order of a comparison. *)
Definition cmp_le {A} (cmp : A → A → comparison) : relation A :=
  λ a b, cmp a b ≠ Gt.

#[global] Instance cmp_le_dec {A} (cmp : A → A → comparison) a b :
  Decision (cmp_le cmp a b).
Proof. unfold cmp_le. solve_decision. Defined.

(** ** The pandas operations the sources call *)

Section dataframe.
Context {K : Type} `{EqDecision K}.
Context (cmp : K → K → comparison).

(** The group keys of [groupby(keys)] (default [sort=True]): the distinct
    keys, ascending. *)
Definition group_keys (ks : list K) : list K :=
  merge_sort (cmp_le cmp) (remove_dups ks).

(** [df.groupby(keys)]: one group per distinct key, in key order; a group
    holds its rows in their original order. *)
Definition groupby {R} (key : R → K) (rows : list R) : list (K * list R) :=
  (λ k, (k, filter (λ r, key r = k) rows)) <$> group_keys (key <$> rows).

(** [df.sort_values(keys)], ascending. *)
Definition sort_values {R} (key : R → K) (rows : list R) : list R :=
  merge_sort (λ a b, cmp_le cmp (key a) (key b)) rows.

(** [left.merge(right, how='left', on=keys)]: every left row in order,
    once per matching right row, or once with missing right cells. *)
Definition merge_left {L R} (lkey : L → K) (rkey : R → K)
    (left : list L) (right : list R) : list (L * option R) :=
  left ≫= λ l,
    match filter (λ r, rkey r = lkey l) right with
    | [] => [(l, None)]
    | ms => (λ r, (l, Some r)) <$> ms
    end.

(** [Series.min()]: missing on an empty column. *)
Definition series_min (col : list K) : option K :=
  match col with
  | [] => None
  | x :: col' =>
      Some (foldl (λ m y, if decide (cmp_le cmp m y) then m else y) x col')
  end.

End dataframe.

(** [Series.max()] on an integer column: missing on an empty column. *)
Definition series_max (col : list Z) : option Z :=
  match col with
  | [] => None
  | x :: col' => Some (foldl Z.max x col')
  end.

(** [Series.nunique()] *)
Definition nunique {A} `{EqDecision A} (col : list A) : Z :=
  Z.of_nat (length (remove_dups col)).

(** The mean of a column, missing cells skipped; missing when no cell is
    present. *)
Definition series_mean (col : list (option Q)) : option Q :=
  match omap id col with
  | [] => None
  | present =>
      Some (Qred (foldr Qplus 0%Q present / inject_Z (Z.of_nat (length present))))
  end.

(** Rounding to the nearest integer, ties to the even one, on the exact
    value. pandas rounds the binary float: where the exact value is a tie
    or next to one (1.015), the float can fall on the other side. *)
Definition round_half_even (q : Q) : Z :=
  let f := Qfloor q in
  match (q - inject_Z f ?= 1 # 2)%Q with
  | Lt => f
  | Gt => f + 1
  | Eq => if Z.even f then f else f + 1
  end.

(** [round(2)] on one cell *)
Definition round2 (q : Q) : Q :=
  Qred (inject_Z (round_half_even (q * 100)) / 100).

(** [df.groupby(key).transform('mean')] on one column: every row receives
    the mean of the column over the rows of its group. *)
Definition transform_mean {R} (key : R → string) (col : R → option Q)
    (rows : list R) : list (option Q) :=
  let means :=
    (λ g : string * list R, (g.1, series_mean (col <$> g.2)))
    <$> groupby String.compare key rows in
  (λ r, head (filter (λ m : string * option Q, m.1 = key r) means) ≫= snd)
  <$> rows.

(** [frame[name] = value] for a [value] that is itself a frame: it must
    have exactly one column. *)
Definition setitem_frame {A} (value : list (list A)) : result (list A) :=
  match value with
  | [col] => Ok col
  | _ => Raise ValueError
  end.

(** ** Data model: the tables the two sources pass around *)

(** A cell as [read_csv] types it: an integer column or a text column. *)
Inductive cell :=
| IntCell (z : Z)
| StrCell (s : string).

(** [astype(str)] on one cell *)
Definition astype_str (c : cell) : string :=
  match c with
  | IntCell z => pretty z
  | StrCell s => s
  end.

(** A row of the game-listing CSV as [read_csv(path, sep=';')] returns it. *)
Module RawGame.
Record t := mk {
  game_date : string;
  season : cell;
  tournament : string;
  round : Z;
  home_team : string;
  away_team : string;
  score : string;
}.
End RawGame.

Inductive game_result := win1 | draw | win2.

(** A row of the listing [read_game_listing] returns. *)
Module Game.
Record t := mk {
  game_date : Z;
  season : string;
  tournament : string;
  round : Z;
  home_team : string;
  away_team : string;
  score : string;
  result : game_result;
}.
End Game.

(** A row of [team_df]: one side of one game. *)
Module TeamRound.
Record t := mk {
  team : string;
  tournament : string;
  season : string;
  round : Z;
}.
End TeamRound.

(** A row of [games_stats] (a participation record). *)
Module Stats.
Record t := mk {
  team : string;
  tournament : string;
  season : string;
  num_rounds : Z;
}.
#[global] Instance stats_eq_dec : EqDecision t.
Proof. solve_decision. Defined.
End Stats.

(** A row of [tournament_stats] after [max_games] is dropped. *)
Module Threshold.
Record t := mk {
  season : string;
  tournament : string;
  min_allowed_num_games : Z;
}.
End Threshold.

(** A row of the team-season output, columns in output order. *)
Module Combo.
Record t := mk {
  tournament : string;
  season : string;
  team : string;
}.
#[global] Instance combo_eq_dec : EqDecision t.
Proof. solve_decision. Defined.
End Combo.

(** A row of a two-column rating table. *)
Module TeamRating.
Record t := mk {
  team : string;
  rating : Q;
}.
End TeamRating.

(** Files are CSV tables; a path that is not in the map does not exist. *)
Inductive csv_file :=
| GameListingCsv (rows : list RawGame.t)
| TeamSeasonCsv (rows : list Combo.t)
| RatingsCsv (rows : list TeamRating.t).

Abbreviation filesystem := (gmap string csv_file).

(** ** team_season.py : the qualification filter *)

(** Group key [(season, tournament)] and its order. *)
Definition season_tournament (r : Stats.t) : string * string :=
  (Stats.season r, Stats.tournament r).

Definition season_tournament_compare :=
  lex_compare String.compare String.compare.

(** Group key [(team, tournament, season)] and its order. *)
Definition team_tournament_season (r : TeamRound.t) : string * (string * string) :=
  (TeamRound.team r, (TeamRound.tournament r, TeamRound.season r)).

Definition team_tournament_season_compare :=
  lex_compare String.compare (lex_compare String.compare String.compare).

(** Sort key [(season, tournament, team)] and its order. *)
Definition season_tournament_team (r : Stats.t) : string * (string * string) :=
  (Stats.season r, (Stats.tournament r, Stats.team r)).

Definition season_tournament_team_compare :=
  lex_compare String.compare (lex_compare String.compare String.compare).

(** [_calc_min_games_to_include_team(num_games)], lines 64-77. *)
Definition _calc_min_games_to_include_team (num_games : Z) : Z :=
  if num_games <=? 2 then 1 else 2.

(** [_calc_min_allowed_games_per_tournament(games_stats)], lines 46-61.
    A missing [max_games] would compare false with 2; a group is never
    empty, so that branch is not taken. *)
Definition _calc_min_allowed_games_per_tournament
    (games_stats : list Stats.t) : list Threshold.t :=
  let tournament_stats :=
    (λ g : (string * string) * list Stats.t,
       (g.1, series_max (Stats.num_rounds <$> g.2)))
    <$> groupby season_tournament_compare season_tournament games_stats in
  (λ ts : (string * string) * option Z,
     Threshold.mk ts.1.1 ts.1.2
       (from_option _calc_min_games_to_include_team 2 ts.2))
  <$> tournament_stats.

Definition threshold_key (t : Threshold.t) : string * string :=
  (Threshold.season t, Threshold.tournament t).

(** [num_rounds >= min_allowed_num_games] on a merged row; a comparison
    with a missing threshold is false. *)
Definition clears_threshold (row : Stats.t * option Threshold.t) : Prop :=
  match row.2 with
  | Some t => Threshold.min_allowed_num_games t ≤ Stats.num_rounds row.1
  | None => False
  end.

#[global] Instance clears_threshold_dec row : Decision (clears_threshold row).
Proof. unfold clears_threshold. destruct (row.2); apply _. Defined.

(** The output columns [['tournament', 'season', 'team']] of a row. *)
Definition combo_of (r : Stats.t) : Combo.t :=
  Combo.mk (Stats.tournament r) (Stats.season r) (Stats.team r).

(** [_calc_team_season_tournament_combos(games_stats, min_num_games)],
    lines 80-100. *)
Definition _calc_team_season_tournament_combos
    (games_stats : list Stats.t) (min_num_games : Z) : list Combo.t :=
  let games_stats1 :=
    filter (λ r, min_num_games ≤ Stats.num_rounds r) games_stats in
  let min_allowed_games_stats :=
    _calc_min_allowed_games_per_tournament games_stats1 in
  let games_stats2 :=
    merge_left season_tournament threshold_key
      games_stats1 min_allowed_games_stats in
  let games_stats3 := filter clears_threshold games_stats2 in
  let games_stats4 :=
    sort_values season_tournament_team_compare
      (λ row, season_tournament_team row.1) games_stats3 in
  (λ row : Stats.t * option Threshold.t, combo_of row.1) <$> games_stats4.

(** ** team_season.py : the participation analysis *)

(** [_get_num_games_stats(listing)], lines 103-118. *)
Definition _get_num_games_stats (listing : list Game.t) : list Stats.t :=
  let home_team_df :=
    (λ g, TeamRound.mk (Game.home_team g) (Game.tournament g)
            (Game.season g) (Game.round g)) <$> listing in
  let away_team_df :=
    (λ g, TeamRound.mk (Game.away_team g) (Game.tournament g)
            (Game.season g) (Game.round g)) <$> listing in
  let team_df := home_team_df ++ away_team_df in
  (λ g : (string * (string * string)) * list TeamRound.t,
     Stats.mk g.1.1 g.1.2.1 g.1.2.2 (nunique (TeamRound.round <$> g.2)))
  <$> groupby team_tournament_season_compare team_tournament_season team_df.

(** ** fetch_and_save.py : result classification and the listing loader *)

(** [_calc_result(score)], lines 83-101. *)
Definition _calc_result (score : string) : result game_result :=
  scores ← mapM (λ x, int (strip x)) (split ":" score);
  s0 ← getitem scores 0;
  s1 ← getitem scores 1;
  if s0 >? s1 then Ok win1
  else if s0 =? s1 then Ok draw
  else Ok win2.

(** [read_csv(path, sep=';')] of a game listing: a missing file is a
    [FileNotFoundError]; a table without the listing's columns fails at
    the first column access. *)
Definition read_csv_listing (fs : filesystem) (path : string)
    : result (list RawGame.t) :=
  match fs !! path with
  | None =>
      Raise (FileNotFoundError
               ("[Errno 2] No such file or directory: '" +:+ path +:+ "'"))
  | Some (GameListingCsv rows) => Ok rows
  | Some _ => Raise (KeyError "game_date")
  end.

(** Lines 40-42: the teams of the minimum season, each with the start
    rating. *)
Definition first_season_teams (team_season_combos : list Combo.t)
    (start_rating : Q) : list TeamRating.t :=
  let first_season :=
    series_min String.compare (Combo.season <$> team_season_combos) in
  let teams :=
    Combo.team
    <$> filter (λ c, first_season = Some (Combo.season c)) team_season_combos in
  (λ t, TeamRating.mk t start_rating) <$> teams.

Section loader.
(** [to_datetime(cell, format='%Y-%m-%d')] followed by [.date()], on one
    cell: the day number of the date, or the exception pandas raises on
    text that is no such date. The parser is pandas' own. *)
Context (to_datetime : string → result Z).

(** [read_game_listing(path)], lines 8-28. Rows of equal date are kept in
    file order; nothing below depends on the order of the listing. *)
Definition read_game_listing (fs : filesystem) (path : string)
    : result (list Game.t) :=
  listing ← read_csv_listing fs path;
  dates ← mapM (λ r, to_datetime (RawGame.game_date r)) listing;
  let listing :=
    sort_values Z.compare fst (zip dates listing) in
  results ← mapM (λ r : Z * RawGame.t, _calc_result (RawGame.score r.2)) listing;
  Ok (zip_with
        (λ (r : Z * RawGame.t) res,
           Game.mk r.1 (astype_str (RawGame.season r.2))
             (RawGame.tournament r.2) (RawGame.round r.2)
             (RawGame.home_team r.2) (RawGame.away_team r.2)
             (RawGame.score r.2) res)
        listing results).

(** ** team_season.py : the pipeline entry point *)

(** [generate_team_season_combos_and_init_team_ratings], lines 8-43.
    An omitted keyword argument is [None] and takes the default of the
    signature. The function returns nothing; the result is the exception,
    if any, and the file system it leaves. *)
Definition generate_team_season_combos_and_init_team_ratings
    (games_list_path output_team_season_path first_season_path : string)
    (min_num_games : option Z) (start_rating : option Q)
    (fs : filesystem) : result () * filesystem :=
  let min_num_games := default 1 min_num_games in
  let start_rating := default 2000%Q start_rating in
  match read_game_listing fs games_list_path with
  | Raise (FileNotFoundError _) =>
      (Raise (FileNotFoundError ("File not found: " +:+ games_list_path)), fs)
  | Raise e => (Raise e, fs)
  | Ok listing =>
      let games_stats := _get_num_games_stats listing in
      let team_season_combos :=
        _calc_team_season_tournament_combos games_stats min_num_games in
      let fs := <[output_team_season_path := TeamSeasonCsv team_season_combos]> fs in
      let teams := first_season_teams team_season_combos start_rating in
      (Ok (), <[first_season_path := RatingsCsv teams]> fs)
  end.

End loader.

(** ** fetch_and_save.py : the rating aggregation *)

(** The dtype [read_csv] gives the season column of a team-season file:
    int64 when every label is a number, object (text) otherwise. A numeric
    column can be averaged, a text column cannot. *)
Class SeasonDtype (S : Type) := {
  season_eq_dec :: EqDecision S;
  season_compare : S → S → comparison;
  season_number : option (S → Q);
}.

#[global] Instance int64_season : SeasonDtype Z :=
  {| season_compare := Z.compare; season_number := Some inject_Z |}.

#[global] Instance object_season : SeasonDtype string :=
  {| season_compare := String.compare; season_number := None |}.

(** A row of the team-season table as [read_csv(team_season_path)]
    returns it. *)
Module TeamSeason.
Record t (S : Type) := mk {
  tournament : string;
  season : S;
  team : string;
}.
Arguments mk {S} _ _ _.
Arguments tournament {S} _.
Arguments season {S} _.
Arguments team {S} _.
End TeamSeason.

(** A row of the aggregated rating table; the rating may be missing. *)
Module AvgRating.
Record t := mk {
  team : string;
  rating : option Q;
}.
End AvgRating.

(** [save_prepare_season_initial_ratings], lines 47-65. The frame read at
    [team_season_path] is the argument [team_seasons]; the result is the
    table written to [output_elo_ratings_path].

    Line 63 calls [transform('mean', 'rating')]: the extra positional
    argument is handed to [mean], whose first parameter is [numeric_only],
    so the call averages every numeric column that is not the group key
    (the season column when it is numeric, the rating column when the
    mapping gave one) and returns a frame with those columns; the
    assignment to the single column [avg_league_rating] takes a frame of
    exactly one column. An empty mapping yields a [final_rating] frame
    without a rating column. This is the call as pandas 1.5 to 2.3 run
    it; under pandas 3 line 63 raises [ValueError] for every table. *)
Definition save_prepare_season_initial_ratings {S} `{SeasonDtype S}
    (elo_ratings_dict : gmap string Q) (team_seasons : list (TeamSeason.t S))
    : result (list AvgRating.t) :=
  let first_season :=
    series_min (season_compare (S:=S)) (TeamSeason.season <$> team_seasons) in
  let team_seasons :=
    filter (λ r, first_season = Some (TeamSeason.season r)) team_seasons in
  let final_rating := map_to_list elo_ratings_dict in
  let team_seasons := merge_left TeamSeason.team fst team_seasons final_rating in
  let numeric_columns :=
    match season_number (S:=S) with
    | Some number =>
        [λ row : TeamSeason.t S * option (string * Q),
           Some (number (TeamSeason.season row.1))]
    | None => []
    end ++
    (if decide (final_rating = []) then []
     else [λ row : TeamSeason.t S * option (string * Q), snd <$> row.2]) in
  let means :=
    (λ col,
       (λ mean : option Q, round2 <$> mean)
       <$> transform_mean (λ row, TeamSeason.tournament row.1) col team_seasons)
    <$> numeric_columns in
  avg_league_rating ← setitem_frame means;
  Ok (zip_with (λ row avg, AvgRating.mk (TeamSeason.team row.1) avg)
        team_seasons avg_league_rating).

(** ** fetch_and_save.py : loading ratings *)

(** A Python [dict] from team to rating, where its order is observed, is
    the list of its items in insertion order; the keys are distinct.

    [d[k] = v]: an existing key keeps its place and takes the new value, a
    new key goes last. *)
Definition dict_setitem (d : list (string * Q)) (k : string) (v : Q)
    : list (string * Q) :=
  if decide (k ∈ d.*1)
  then (λ kv : string * Q, if decide (kv.1 = k) then (k, v) else kv) <$> d
  else d ++ [(k, v)].

(** [set_index('team')['rating'].to_dict()]: the rows are entered one
    after the other. *)
Definition to_dict (rows : list TeamRating.t) : list (string * Q) :=
  foldl (λ d row, dict_setitem d (TeamRating.team row) (TeamRating.rating row))
    [] rows.

(** [load_elo_ratings(path)], lines 31-44. A table without the column
    [team], or without the column [rating], fails at that column. *)
Definition load_elo_ratings (fs : filesystem) (path : string)
    : result (list (string * Q)) :=
  match fs !! path with
  | None =>
      Raise (FileNotFoundError
               ("[Errno 2] No such file or directory: '" +:+ path +:+ "'"))
  | Some (RatingsCsv rows) => Ok (to_dict rows)
  | Some (TeamSeasonCsv _) => Raise (KeyError "rating")
  | Some (GameListingCsv _) => Raise (KeyError "team")
  end.

(** ** Example tables *)

(** Team A with one round and team B with three, in one group. *)
Definition stats_one_and_three : list Stats.t :=
  [Stats.mk "A" "T1" "2020" 1; Stats.mk "B" "T1" "2020" 3].

(** The same participation record twice. *)
Definition stats_repeated_row : list Stats.t :=
  [Stats.mk "A" "T1" "2020" 1; Stats.mk "A" "T1" "2020" 1].

(** Team X is home side in one game of round 1 and away side in another
    game of the same round. *)
Definition listing_same_round_twice : list Game.t :=
  [Game.mk 0 "2020" "T1" 1 "X" "Y" "1 : 0" win1;
   Game.mk 0 "2020" "T1" 1 "Z" "X" "0 : 0" draw].

(** Team A qualified in two tournaments of the earliest season. *)
Definition combos_two_tournaments : list Combo.t :=
  [Combo.mk "T1" "2020" "A"; Combo.mk "T1" "2020" "B";
   Combo.mk "T2" "2020" "A"; Combo.mk "T2" "2020" "C";
   Combo.mk "T1" "2021" "B"].

(** A date parser for the examples: every game on day 0. *)
Definition same_day (text : string) : result Z := Ok 0.

(** A game listing in which team A plays in tournaments T1 and T2 of
    season 2020. *)
Definition fs_two_tournaments : filesystem :=
  {[ "games.csv" :=
       GameListingCsv
         [RawGame.mk "2020-03-01" (IntCell 2020) "T1" 1 "A" "B" "1 : 0";
          RawGame.mk "2020-03-01" (IntCell 2020) "T2" 1 "A" "C" "2 : 2"] ]}.

(** A listing with a score that has no digits. *)
Definition fs_missing_score : filesystem :=
  {[ "games.csv" :=
       GameListingCsv
         [RawGame.mk "2020-03-01" (IntCell 2020) "T1" 1 "A" "B" "- : -"] ]}.

(** The external ratings and the team-season table of the two-tournament
    scenario: once with year numbers as season labels, which [read_csv]
    types as integers, and once with text labels. *)
Definition ratings_A_B : gmap string Q :=
  <["A" := 1900%Q]> (<["B" := 2100%Q]> ∅).

Definition team_seasons_year : list (TeamSeason.t Z) :=
  [TeamSeason.mk "T1" 2020 "A"; TeamSeason.mk "T1" 2020 "B";
   TeamSeason.mk "T2" 2020 "A"].

Definition team_seasons_text : list (TeamSeason.t string) :=
  [TeamSeason.mk "T1" "2020/21" "A"; TeamSeason.mk "T1" "2020/21" "B";
   TeamSeason.mk "T2" "2020/21" "A"].

(** The listing [read_game_listing] returns for [fs_two_tournaments]. *)
Definition listing_two_tournaments : list Game.t :=
  [Game.mk 0 "2020" "T1" 1 "A" "B" "1 : 0" win1;
   Game.mk 0 "2020" "T2" 1 "A" "C" "2 : 2" draw].

(** A rating file in which team A has two rows. *)
Definition ratings_rows_A_twice : list TeamRating.t :=
  [TeamRating.mk "A" 1900; TeamRating.mk "B" 2100; TeamRating.mk "A" 1950].

(** One space. *)
Definition space : string := " ".

(** ** Vocabulary of the properties *)

(** [m] is the largest [num_rounds] among the rows of group [key]. *)
Definition is_max_games (games_stats : list Stats.t) (key : string * string)
    (m : Z) : Prop :=
  (∃ r, r ∈ games_stats ∧ season_tournament r = key ∧ Stats.num_rounds r = m) ∧
  (∀ r, r ∈ games_stats → season_tournament r = key → Stats.num_rounds r ≤ m).

(** The rows that remain after the floor filter. *)
Definition above_floor (min_num_games : Z) (games_stats : list Stats.t)
    : list Stats.t :=
  filter (λ r, min_num_games ≤ Stats.num_rounds r) games_stats.

(** [max_games] of a group, as a function of the table and the key. *)
Definition group_max (games_stats : list Stats.t) (key : string * string)
    : option Z :=
  series_max
    (Stats.num_rounds <$> filter (λ r, season_tournament r = key) games_stats).

(** The derived threshold of the group of row [r] within a table. *)
Definition threshold_of (games_stats : list Stats.t) (r : Stats.t) : Z :=
  from_option _calc_min_games_to_include_team 2
    (group_max games_stats (season_tournament r)).

(** The (team, tournament, season) triple of a participation record. *)
Definition stats_key (r : Stats.t) : string * (string * string) :=
  (Stats.team r, (Stats.tournament r, Stats.season r)).

(** Ascending order by (season, tournament, team) on output rows. *)
Definition combo_key (c : Combo.t) : string * (string * string) :=
  (Combo.season c, (Combo.tournament c, Combo.team c)).

Definition combo_le : relation Combo.t :=
  λ a b, cmp_le season_tournament_team_compare (combo_key a) (combo_key b).

Definition combo_lt : relation Combo.t :=
  λ a b, season_tournament_team_compare (combo_key a) (combo_key b) = Lt.

(** The team took part in game [g] of the given tournament and season, as
    home or as away side. *)
Definition played_in (team tournament season : string) (g : Game.t) : Prop :=
  Game.tournament g = tournament ∧ Game.season g = season ∧
  (Game.home_team g = team ∨ Game.away_team g = team).

#[global] Instance played_in_dec team tournament season g :
  Decision (played_in team tournament season g).
Proof. unfold played_in. apply _. Defined.

(** The set of round identifiers in which the team appeared. *)
Definition rounds_played (team tournament season : string)
    (listing : list Game.t) : gset Z :=
  list_to_set (Game.round <$> filter (played_in team tournament season) listing).

(** The table [team_df] of [_get_num_games_stats]: the home sides, then
    the away sides. *)
Definition team_df (listing : list Game.t) : list TeamRound.t :=
  ((λ g, TeamRound.mk (Game.home_team g) (Game.tournament g)
           (Game.season g) (Game.round g)) <$> listing) ++
  ((λ g, TeamRound.mk (Game.away_team g) (Game.tournament g)
           (Game.season g) (Game.round g)) <$> listing).

(** The rows of the earliest season of a team-season table. *)
Definition earliest_rows {S} `{SeasonDtype S} (team_seasons : list (TeamSeason.t S))
    : list (TeamSeason.t S) :=
  filter (λ r, series_min (season_compare (S:=S))
                 (TeamSeason.season <$> team_seasons)
               = Some (TeamSeason.season r))
    team_seasons.

(** The mean, rounded to two places, of the external ratings of the teams
    of a tournament; teams without a rating are skipped. *)
Definition tournament_mean {S} (elo_ratings_dict : gmap string Q)
    (rows : list (TeamSeason.t S)) (tournament : string) : option Q :=
  round2
  <$> series_mean
        ((λ r, elo_ratings_dict !! TeamSeason.team r)
         <$> filter (λ r, TeamSeason.tournament r = tournament) rows).

(** The score splits on the colon into exactly two integers. *)
Definition splits_into_two_integers (score : string) : Prop :=
  ∃ a b x y, split ":" score = [a; b] ∧
    int_literal (strip a) = Some x ∧ int_literal (strip b) = Some y.

(** The score has a piece that is no integer, or fewer than two pieces. *)
Definition malformed (score : string) : Prop :=
  (∃ p, p ∈ split ":" score ∧ int_literal (strip p) = None) ∨
  (length (split ":" score) < 2)%nat.

(** The season is the minimum season of the table. *)
Definition is_first_season (combos : list Combo.t) (season : string) : Prop :=
  season ∈ Combo.season <$> combos ∧
  ∀ c, c ∈ combos → cmp_le String.compare season (Combo.season c).

(** The sides of a game exchanged. *)
Definition swap_sides (g : Game.t) : Game.t :=
  Game.mk (Game.game_date g) (Game.season g) (Game.tournament g)
    (Game.round g) (Game.away_team g) (Game.home_team g)
    (Game.score g) (Game.result g).

(** The set of round identifiers of a tournament and season. *)
Definition rounds_scheduled (tournament season : string)
    (listing : list Game.t) : gset Z :=
  list_to_set
    (Game.round
     <$> filter (λ g, Game.tournament g = tournament ∧ Game.season g = season)
           listing).

(** The result of a game with [x] home goals and [y] away goals. *)
Definition classify (x y : Z) : game_result :=
  if decide (y < x) then win1 else if decide (x = y) then draw else win2.

(** The game row the loader makes of a file row, its parsed date and its
    classified result. *)
Definition game_of (d : Z) (r : RawGame.t) (res : game_result) : Game.t :=
  Game.mk d (astype_str (RawGame.season r)) (RawGame.tournament r)
    (RawGame.round r) (RawGame.home_team r) (RawGame.away_team r)
    (RawGame.score r) res.

(** Every character of the string passes the test. *)
Fixpoint all_chars (test : ascii → bool) (s : string) : bool :=
  match s with
  | EmptyString => true
  | String c s' => test c && all_chars test s'
  end.

(** A character that is neither whitespace nor the colon. *)
Definition plain (c : ascii) : bool := negb (isspace c) && negb (Ascii.eqb c ":").

(** The string starts with a character that is neither sign. *)
Definition unsigned (s : string) : Prop :=
  match s with
  | String c _ => c ≠ "-"%char ∧ c ≠ "+"%char
  | EmptyString => False
  end.

(** * Properties *)

(** A decidable closed proposition, settled by evaluating its decision. *)
Ltac by_evaluation := apply (bool_decide_unpack _); vm_compute; exact I.

(** ** The order of a comparison *)

Section comparator_facts.
Context {A} (cmp : A → A → comparison) `{!Comparator cmp}.

Lemma cmp_refl a : cmp a a = Eq.
Proof.
  pose proof (cmp_antisym (cmp:=cmp) a a) as H.
  destruct (cmp a a); simpl in H; congruence.
Qed.

Lemma cmp_eq_iff a b : cmp a b = Eq ↔ a = b.
Proof. split; [apply cmp_eq|intros ->; apply cmp_refl]. Qed.

#[global] Instance cmp_le_total : Total (cmp_le cmp).
Proof.
  intros a b. unfold cmp_le. rewrite (cmp_antisym (cmp:=cmp) b a).
  destruct (cmp a b); simpl; [left|left|right]; congruence.
Qed.

#[global] Instance cmp_le_trans : Transitive (cmp_le cmp).
Proof.
  intros a b c. unfold cmp_le. intros Hab Hbc.
  destruct (cmp a b) eqn:Eab; [|clear Hab|congruence].
  - apply (cmp_eq (cmp:=cmp)) in Eab as ->. done.
  - destruct (cmp b c) eqn:Ebc; [| |congruence].
    + apply (cmp_eq (cmp:=cmp)) in Ebc as ->. rewrite Eab. done.
    + rewrite (cmp_lt_trans (cmp:=cmp) a b c Eab Ebc). done.
Qed.

#[global] Instance cmp_le_antisym : AntiSymm (=) (cmp_le cmp).
Proof.
  intros a b. unfold cmp_le. rewrite (cmp_antisym (cmp:=cmp) b a).
  destruct (cmp a b) eqn:Eab; simpl; intros; try congruence.
  by apply (cmp_eq (cmp:=cmp)).
Qed.

#[global] Instance cmp_le_refl : Reflexive (cmp_le cmp).
Proof. intros a. unfold cmp_le. by rewrite cmp_refl. Qed.

Lemma cmp_le_lt_or_eq a b : cmp_le cmp a b ↔ cmp a b = Lt ∨ a = b.
Proof.
  unfold cmp_le. split.
  - destruct (cmp a b) eqn:E; try congruence; [|by left].
    right. by apply (cmp_eq (cmp:=cmp)).
  - intros [->| ->]; [done|]. by rewrite cmp_refl.
Qed.
End comparator_facts.

#[global] Instance Z_comparator : Comparator Z.compare.
Proof.
  split.
  - intros a b. apply Z.compare_antisym.
  - intros a b. apply Z.compare_eq.
  - intros a b c. rewrite !Z.compare_lt_iff. lia.
Qed.

Lemma ascii_compare_lt_trans a b c :
  Ascii.compare a b = Lt → Ascii.compare b c = Lt → Ascii.compare a c = Lt.
Proof. unfold Ascii.compare. rewrite !N.compare_lt_iff. lia. Qed.

#[global] Instance string_comparator : Comparator String.compare.
Proof.
  split.
  - apply String.compare_antisym.
  - apply String.compare_eq_iff.
  - intros a. induction a as [|x a IH]; intros [|y b] [|z c]; simpl; try done.
    destruct (Ascii.compare x y) eqn:Exy; try done.
    + apply Ascii.compare_eq_iff in Exy as ->.
      destruct (Ascii.compare y z); try done. apply IH.
    + intros _. destruct (Ascii.compare y z) eqn:Eyz; try done.
      * apply Ascii.compare_eq_iff in Eyz as ->. by rewrite Exy.
      * by rewrite (ascii_compare_lt_trans _ _ _ Exy Eyz).
Qed.

#[global] Instance lex_comparator {A B} (cmpA : A → A → comparison)
  (cmpB : B → B → comparison) `{!Comparator cmpA, !Comparator cmpB} :
  Comparator (lex_compare cmpA cmpB).
Proof.
  split.
  - intros [a1 b1] [a2 b2]. unfold lex_compare; simpl.
    rewrite (cmp_antisym (cmp:=cmpA) a1 a2). destruct (cmpA a2 a1); simpl; try done.
    apply (cmp_antisym (cmp:=cmpB)).
  - intros [a1 b1] [a2 b2]. unfold lex_compare; simpl.
    destruct (cmpA a1 a2) eqn:Ea; try done.
    intros Eb. apply (cmp_eq (cmp:=cmpA)) in Ea as ->.
    by apply (cmp_eq (cmp:=cmpB)) in Eb as ->.
  - intros [a1 b1] [a2 b2] [a3 b3]. unfold lex_compare; simpl.
    destruct (cmpA a1 a2) eqn:E12; try done.
    + apply (cmp_eq (cmp:=cmpA)) in E12 as ->.
      destruct (cmpA a2 a3); try done. apply (cmp_lt_trans (cmp:=cmpB)).
    + intros _. destruct (cmpA a2 a3) eqn:E23; try done.
      * apply (cmp_eq (cmp:=cmpA)) in E23 as ->. by rewrite E12.
      * by rewrite (cmp_lt_trans (cmp:=cmpA) _ _ _ E12 E23).
Qed.

#[global] Instance season_tournament_comparator :
  Comparator season_tournament_compare.
Proof. apply _. Qed.

#[global] Instance team_tournament_season_comparator :
  Comparator team_tournament_season_compare.
Proof. apply _. Qed.

#[global] Instance season_tournament_team_comparator :
  Comparator season_tournament_team_compare.
Proof. apply _. Qed.

(** ** Group-by, sort and left join *)

Section dataframe_facts.
Context {K : Type} `{EqDecision K}.
Context (cmp : K → K → comparison) `{!Comparator cmp}.

Lemma elem_of_group_keys ks k : k ∈ group_keys cmp ks ↔ k ∈ ks.
Proof.
  unfold group_keys. rewrite merge_sort_Permutation. apply elem_of_remove_dups.
Qed.

Lemma NoDup_group_keys ks : NoDup (group_keys cmp ks).
Proof.
  unfold group_keys. rewrite merge_sort_Permutation. apply NoDup_remove_dups.
Qed.

Lemma StronglySorted_group_keys ks :
  StronglySorted (cmp_le cmp) (group_keys cmp ks).
Proof. apply StronglySorted_merge_sort; apply _. Qed.

Lemma groupby_keys {R} (key : R → K) rows :
  (groupby cmp key rows).*1 = group_keys cmp (key <$> rows).
Proof.
  unfold groupby.
  induction (group_keys cmp (key <$> rows)) as [|k ks IH]; [done|].
  rewrite !fmap_cons. simpl. by rewrite IH.
Qed.

Lemma elem_of_groupby {R} (key : R → K) rows k grp :
  (k, grp) ∈ groupby cmp key rows ↔
  k ∈ key <$> rows ∧ grp = filter (λ r, key r = k) rows.
Proof.
  unfold groupby. rewrite list_elem_of_fmap. split.
  - intros (k' & Heq & Hk). simplify_eq.
    split; [by apply (proj1 (elem_of_group_keys _ _))|done].
  - intros [Hk ->]. exists k. split; [done|].
    by apply (proj2 (elem_of_group_keys _ _)).
Qed.

Lemma NoDup_groupby_keys {R} (key : R → K) rows :
  NoDup ((groupby cmp key rows).*1).
Proof. rewrite groupby_keys. apply NoDup_group_keys. Qed.

Lemma groupby_nonempty {R} (key : R → K) rows k grp :
  (k, grp) ∈ groupby cmp key rows → grp ≠ [].
Proof.
  rewrite elem_of_groupby. intros [Hk ->] Hnil.
  apply list_elem_of_fmap in Hk as (r & -> & Hr).
  eapply (filter_nil_not_elem_of _ _ r); [exact Hnil|done|done].
Qed.

Lemma sort_values_Permutation {R} (key : R → K) rows :
  sort_values cmp key rows ≡ₚ rows.
Proof. apply merge_sort_Permutation. Qed.

Lemma sort_values_sorted {R} (key : R → K) rows :
  StronglySorted (cmp_le cmp) (key <$> sort_values cmp key rows).
Proof.
  unfold sort_values.
  apply (StronglySorted_fmap _ (λ a b, cmp_le cmp (key a) (key b))); [done|].
  apply StronglySorted_merge_sort.
  - intros a b c. apply (cmp_le_trans cmp).
  - intros a b. apply (cmp_le_total cmp).
Qed.

Lemma series_min_spec col m :
  series_min cmp col = Some m ↔ m ∈ col ∧ ∀ x, x ∈ col → cmp_le cmp m x.
Proof.
  assert (∀ l a, let r := foldl (λ m y, if decide (cmp_le cmp m y) then m else y) a l in
            r ∈ a :: l ∧ ∀ x, x ∈ a :: l → cmp_le cmp r x) as Hfold.
  { induction l as [|y l IH]; intros a; simpl.
    - split; [left|]. intros x ->%list_elem_of_singleton. apply (cmp_le_refl cmp).
    - destruct (decide (cmp_le cmp a y)) as [Hay|Hay].
      + destruct (IH a) as [Hin Hle]. split.
        * apply elem_of_cons in Hin as [->|Hin]; [left|right; by right].
        * intros x [->|[->|Hx]%elem_of_cons]%elem_of_cons.
          -- apply Hle. left.
          -- etrans; [apply Hle; left|done].
          -- apply Hle. by right.
      + destruct (IH y) as [Hin Hle]. split.
        * by right.
        * intros x [->|Hx]%elem_of_cons; [|by apply Hle].
          etrans; [apply Hle; left|].
          destruct (cmp_le_total cmp a y); done. }
  destruct col as [|a l]; simpl.
  - split; [done|]. intros [Hm _]. by apply elem_of_nil in Hm.
  - destruct (Hfold l a) as [Hin Hle]. split.
    + intros [= <-]. done.
    + intros [Hm Hmle]. f_equal. apply (cmp_le_antisym cmp); auto.
Qed.
End dataframe_facts.

Section merge_facts.
Context {K : Type} `{EqDecision K}.

Lemma filter_key_at_most_one {R} (rkey : R → K) (right : list R) k :
  NoDup (rkey <$> right) →
  filter (λ r, rkey r = k) right = option_list (head (filter (λ r, rkey r = k) right)).
Proof.
  induction right as [|r right IH]; [done|].
  rewrite fmap_cons, NoDup_cons. intros [Hr Hnd].
  rewrite filter_cons. destruct (decide (rkey r = k)) as [<-|Hne]; simpl.
  - f_equal. destruct (filter (λ x, rkey x = rkey r) right) as [|x l] eqn:E; [done|].
    exfalso. apply Hr. assert (x ∈ filter (λ x, rkey x = rkey r) right) as Hx.
    { rewrite E. left. }
    apply list_elem_of_filter in Hx as [<- Hx]. by apply list_elem_of_fmap_2.
  - by apply IH.
Qed.

Lemma merge_left_unique {L R} (lkey : L → K) (rkey : R → K) left right :
  NoDup (rkey <$> right) →
  merge_left lkey rkey left right =
  (λ l, (l, head (filter (λ r, rkey r = lkey l) right))) <$> left.
Proof.
  intros Hnd. unfold merge_left.
  induction left as [|l left IH]; [done|].
  rewrite bind_cons, fmap_cons, IH.
  rewrite (filter_key_at_most_one rkey right (lkey l) Hnd).
  by destruct (head (filter (λ r, rkey r = lkey l) right)).
Qed.

Lemma head_filter_key {R} (rkey : R → K) (right : list R) r :
  NoDup (rkey <$> right) → r ∈ right →
  head (filter (λ x, rkey x = rkey r) right) = Some r.
Proof.
  intros Hnd Hr.
  induction right as [|x right IH]; [by apply elem_of_nil in Hr|].
  rewrite fmap_cons, NoDup_cons in Hnd. destruct Hnd as [Hx Hnd].
  rewrite filter_cons. apply elem_of_cons in Hr as [->|Hr].
  - by rewrite decide_True.
  - rewrite decide_False; [by apply IH|].
    intros Heq. apply Hx. rewrite Heq. by apply list_elem_of_fmap_2.
Qed.
End merge_facts.

Lemma series_max_spec col m :
  series_max col = Some m ↔ m ∈ col ∧ ∀ x, x ∈ col → x ≤ m.
Proof.
  assert (∀ l a, foldl Z.max a l ∈ a :: l ∧ ∀ x, x ∈ a :: l → x ≤ foldl Z.max a l)
    as Hfold.
  { induction l as [|y l IH]; intros a; simpl.
    - split; [left|]. intros x ->%list_elem_of_singleton. lia.
    - destruct (IH (a `max` y)) as [Hin Hle]. split.
      + apply elem_of_cons in Hin as [Hin|Hin]; [|right; by right].
        rewrite Hin. destruct (Z.max_spec a y) as [[_ ->]|[_ ->]];
          [right|]; left.
      + intros x Hx. assert (a `max` y ≤ foldl Z.max (a `max` y) l) by (apply Hle; left).
        apply elem_of_cons in Hx as [->|[->|Hx]%elem_of_cons]; [lia|lia|].
        apply Hle. by right. }
  destruct col as [|a l]; simpl.
  - split; [done|]. intros [Hm _]. by apply elem_of_nil in Hm.
  - destruct (Hfold l a) as [Hin Hle]. split.
    + intros [= <-]. done.
    + intros [Hm Hmle]. f_equal. apply Z.le_antisymm; auto.
Qed.

(** ** The qualification filter *)

Lemma group_max_spec games_stats key m :
  group_max games_stats key = Some m ↔ is_max_games games_stats key m.
Proof.
  unfold group_max, is_max_games. rewrite series_max_spec. split.
  - intros [Hm Hle]. split.
    + apply list_elem_of_fmap in Hm as (r & -> & Hr).
      apply list_elem_of_filter in Hr as [Hk Hr]. by exists r.
    + intros r Hr Hk. apply Hle. apply list_elem_of_fmap_2.
      by apply list_elem_of_filter.
  - intros [(r & Hr & Hk & <-) Hle]. split.
    + apply list_elem_of_fmap_2. by apply list_elem_of_filter.
    + intros x (r' & -> & Hr')%list_elem_of_fmap.
      apply list_elem_of_filter in Hr' as [Hk' Hr']. by apply Hle.
Qed.

Lemma group_max_is_Some games_stats r :
  r ∈ games_stats → is_Some (group_max games_stats (season_tournament r)).
Proof.
  intros Hr. unfold group_max.
  destruct (filter _ games_stats) as [|x l] eqn:E.
  - exfalso. by eapply (filter_nil_not_elem_of _ _ r).
  - by eexists.
Qed.

Lemma is_max_games_unique games_stats key m1 m2 :
  is_max_games games_stats key m1 → is_max_games games_stats key m2 → m1 = m2.
Proof.
  intros [(r1 & Hr1 & Hk1 & <-) Hle1] [(r2 & Hr2 & Hk2 & <-) Hle2].
  apply Z.le_antisymm; auto.
Qed.

Lemma min_allowed_unfold games_stats :
  _calc_min_allowed_games_per_tournament games_stats =
  (λ k, Threshold.mk k.1 k.2
          (from_option _calc_min_games_to_include_team 2 (group_max games_stats k)))
  <$> group_keys season_tournament_compare (season_tournament <$> games_stats).
Proof.
  unfold _calc_min_allowed_games_per_tournament, groupby.
  rewrite <- !list_fmap_compose. done.
Qed.

Lemma min_allowed_keys games_stats :
  threshold_key <$> _calc_min_allowed_games_per_tournament games_stats =
  group_keys season_tournament_compare (season_tournament <$> games_stats).
Proof.
  rewrite min_allowed_unfold, <- list_fmap_compose.
  rewrite <- (list_fmap_id (group_keys _ _)) at 2.
  apply list_fmap_ext. by intros _ [s t] _.
Qed.

Lemma NoDup_min_allowed_keys games_stats :
  NoDup (threshold_key <$> _calc_min_allowed_games_per_tournament games_stats).
Proof. rewrite min_allowed_keys. apply NoDup_group_keys. Qed.

Lemma lookup_threshold games_stats r :
  r ∈ games_stats →
  head (filter (λ t, threshold_key t = season_tournament r)
          (_calc_min_allowed_games_per_tournament games_stats)) =
  Some (Threshold.mk (Stats.season r) (Stats.tournament r)
          (threshold_of games_stats r)).
Proof.
  intros Hr.
  set (t := Threshold.mk (Stats.season r) (Stats.tournament r)
              (threshold_of games_stats r)).
  change (season_tournament r) with (threshold_key t).
  apply head_filter_key; [apply NoDup_min_allowed_keys|].
  rewrite min_allowed_unfold. apply list_elem_of_fmap.
  exists (season_tournament r). split; [done|].
  apply elem_of_group_keys. by apply list_elem_of_fmap_2.
Qed.

(** The rows the filter keeps, before sorting and projecting. *)
Lemma combos_rows games_stats min_num_games :
  _calc_team_season_tournament_combos games_stats min_num_games ≡ₚ
  combo_of
  <$> filter (λ r, threshold_of (above_floor min_num_games games_stats) r
                   ≤ Stats.num_rounds r)
        (above_floor min_num_games games_stats).
Proof.
  unfold _calc_team_season_tournament_combos.
  fold (above_floor min_num_games games_stats).
  set (rows := above_floor min_num_games games_stats).
  rewrite sort_values_Permutation.
  rewrite merge_left_unique by apply NoDup_min_allowed_keys.
  assert (∀ l : list Stats.t, (∀ r, r ∈ l → r ∈ rows) →
    (λ row : Stats.t * option Threshold.t, combo_of row.1)
    <$> filter clears_threshold
          ((λ l0, (l0, head (filter (λ r, threshold_key r = season_tournament l0)
                               (_calc_min_allowed_games_per_tournament rows))))
           <$> l)
    = combo_of <$> filter (λ r, threshold_of rows r ≤ Stats.num_rounds r) l) as Hl.
  { induction l as [|r l IH]; intros Hsub; [done|].
    rewrite fmap_cons, !filter_cons.
    rewrite lookup_threshold by (apply Hsub; left).
    unfold clears_threshold at 1. simpl.
    assert (∀ r0, r0 ∈ l → r0 ∈ rows) as Hsub' by (intros; apply Hsub; by right).
    destruct (decide (threshold_of rows r ≤ Stats.num_rounds r));
      rewrite ?fmap_cons; simpl; by rewrite IH. }
  by rewrite Hl.
Qed.

Lemma combos_elem_of games_stats min_num_games c :
  c ∈ _calc_team_season_tournament_combos games_stats min_num_games ↔
  ∃ r, r ∈ above_floor min_num_games games_stats ∧ combo_of r = c ∧
       threshold_of (above_floor min_num_games games_stats) r ≤ Stats.num_rounds r.
Proof.
  rewrite combos_rows, list_elem_of_fmap. split.
  - intros (r & -> & [Hq Hr]%list_elem_of_filter). by exists r.
  - intros (r & Hr & <- & Hq). exists r. split; [done|].
    by apply list_elem_of_filter.
Qed.

Lemma threshold_of_spec games_stats r m :
  is_max_games games_stats (season_tournament r) m →
  threshold_of games_stats r = _calc_min_games_to_include_team m.
Proof.
  intros Hm%group_max_spec. unfold threshold_of. by rewrite Hm.
Qed.

(** Raising the floor keeps the maximum of every group that keeps a row. *)
Lemma group_max_floor games_stats f1 f2 r :
  f1 ≤ f2 → r ∈ above_floor f2 games_stats →
  group_max (above_floor f1 games_stats) (season_tournament r) =
  group_max (above_floor f2 games_stats) (season_tournament r).
Proof.
  intros Hf Hr2.
  assert (r ∈ above_floor f1 games_stats) as Hr1.
  { unfold above_floor in *. apply list_elem_of_filter in Hr2 as [? ?].
    apply list_elem_of_filter. split; [lia|done]. }
  destruct (group_max_is_Some _ _ Hr1) as [m1 H1].
  destruct (group_max_is_Some _ _ Hr2) as [m2 H2].
  rewrite H1, H2. f_equal.
  apply group_max_spec in H1 as [(r1 & Hin1 & Hk1 & <-) Hle1].
  apply group_max_spec in H2 as [(r2 & Hin2 & Hk2 & <-) Hle2].
  unfold above_floor in *.
  apply list_elem_of_filter in Hin1 as [Hf1 Hin1].
  apply list_elem_of_filter in Hin2 as [Hf2 Hin2].
  apply list_elem_of_filter in Hr2 as [Hfr Hr].
  apply Z.le_antisymm.
  - apply Hle2; [|done]. apply list_elem_of_filter. split; [|done].
    assert (Stats.num_rounds r ≤ Stats.num_rounds r1); [|lia].
    apply Hle1; [|done]. apply list_elem_of_filter. split; [lia|done].
  - apply Hle1; [|done]. apply list_elem_of_filter. split; [lia|done].
Qed.

Lemma filter_above_floor (P : Stats.t → Prop) `{∀ r, Decision (P r)}
    min_num_games games_stats :
  filter P (above_floor min_num_games games_stats) =
  filter (λ r, P r ∧ min_num_games ≤ Stats.num_rounds r) games_stats.
Proof. unfold above_floor. apply list_filter_filter. Qed.

Lemma length_filter_impl {A} (P Q : A → Prop)
    `{∀ x, Decision (P x), ∀ x, Decision (Q x)} (l : list A) :
  (∀ x, x ∈ l → P x → Q x) → (length (filter P l) ≤ length (filter Q l))%nat.
Proof.
  induction l as [|x l IH]; intros Himpl; [done|].
  assert (length (filter P l) ≤ length (filter Q l))%nat as IH'.
  { apply IH. intros y Hy. apply Himpl. by right. }
  rewrite !filter_cons.
  destruct (decide (P x)) as [HP|HP].
  - rewrite decide_True by (apply Himpl; [left|done]). simpl. lia.
  - destruct (decide (Q x)); simpl; lia.
Qed.

Lemma StronglySorted_of_fmap {A B} (f : A → B) (R : relation B) (l : list A) :
  StronglySorted R (f <$> l) → StronglySorted (λ a b, R (f a) (f b)) l.
Proof.
  induction l as [|x l IH]; [constructor|].
  rewrite fmap_cons. intros [Hs Hall]%StronglySorted_inv.
  constructor; [by apply IH|]. apply Forall_forall. intros y Hy.
  rewrite Forall_forall in Hall. apply Hall. by apply list_elem_of_fmap_2.
Qed.

Lemma combos_sorted games_stats min_num_games :
  StronglySorted combo_le
    (_calc_team_season_tournament_combos games_stats min_num_games).
Proof.
  unfold _calc_team_season_tournament_combos.
  set (rows := filter clears_threshold _).
  apply (StronglySorted_of_fmap combo_key
           (cmp_le season_tournament_team_compare)).
  rewrite <- list_fmap_compose.
  apply (sort_values_sorted season_tournament_team_compare
           (λ row : Stats.t * option Threshold.t, season_tournament_team row.1)).
Qed.

Lemma combos_NoDup games_stats min_num_games :
  NoDup (stats_key <$> games_stats) →
  NoDup (_calc_team_season_tournament_combos games_stats min_num_games).
Proof.
  intros Hnd. rewrite combos_rows.
  assert (NoDup (combo_of <$> games_stats)) as Hnd'.
  { apply (NoDup_fmap_1 (λ c, (Combo.team c, (Combo.tournament c, Combo.season c)))).
    by rewrite <- list_fmap_compose. }
  eapply sublist_NoDup; [exact Hnd'|].
  apply fmap_sublist. unfold above_floor.
  etrans; apply sublist_filter.
Qed.

Lemma sorted_NoDup_strict (l : list Combo.t) :
  StronglySorted combo_le l → NoDup l → StronglySorted combo_lt l.
Proof.
  induction 1 as [|x l Hs IH Hall]; [constructor|].
  intros [Hx Hnd]%NoDup_cons. constructor; [by apply IH|].
  apply Forall_forall. intros y Hy.
  rewrite Forall_forall in Hall. specialize (Hall y Hy).
  apply (cmp_le_lt_or_eq season_tournament_team_compare) in Hall as [Hlt|Heq];
    [done|].
  exfalso. apply Hx. destruct x, y. unfold combo_key in Heq. simpl in Heq.
  by simplify_eq.
Qed.

(** ** Claims about the qualification filter *)

(** C1. For every table of participation records, the threshold table
    holds exactly one row per (season, tournament) group of the table; the
    threshold [min_allowed_num_games] of a group is 1 when the group's
    [max_games] (the largest [num_rounds] among its rows) is at most 2 and
    2 otherwise. In particular [max_games = 2] gives threshold 1 and
    [max_games = 3] gives threshold 2. *)
Theorem min_allowed_games_threshold_rule (games_stats : list Stats.t) :
  (∀ t, t ∈ _calc_min_allowed_games_per_tournament games_stats ↔
        ∃ m, is_max_games games_stats (threshold_key t) m ∧
             Threshold.min_allowed_num_games t = if decide (m ≤ 2) then 1 else 2) ∧
  (∀ r, r ∈ games_stats →
        ∃ t, t ∈ _calc_min_allowed_games_per_tournament games_stats ∧
             threshold_key t = season_tournament r) ∧
  NoDup (threshold_key <$> _calc_min_allowed_games_per_tournament games_stats) ∧
  _calc_min_games_to_include_team 2 = 1 ∧
  _calc_min_games_to_include_team 3 = 2.
Proof.
  assert (∀ m, _calc_min_games_to_include_team m = if decide (m ≤ 2) then 1 else 2)
    as Hrule.
  { intros m. unfold _calc_min_games_to_include_team.
    destruct (Z.leb_spec m 2); case_decide; lia. }
  assert (∀ t, t ∈ _calc_min_allowed_games_per_tournament games_stats ↔
        ∃ m, is_max_games games_stats (threshold_key t) m ∧
             Threshold.min_allowed_num_games t = if decide (m ≤ 2) then 1 else 2)
    as Hchar.
  { intros t. rewrite min_allowed_unfold, list_elem_of_fmap. split.
    - intros (k & -> & Hk). apply elem_of_group_keys in Hk.
      apply list_elem_of_fmap in Hk as (r & -> & Hr).
      destruct (group_max_is_Some _ _ Hr) as [m Hm].
      exists m. simpl. rewrite Hm. simpl. split; [|apply Hrule].
      by apply group_max_spec.
    - intros (m & Hm & Ht). exists (threshold_key t).
      pose proof Hm as [(r & Hr & Hk & _) _].
      apply group_max_spec in Hm. rewrite Hm. simpl. split.
      + destruct t as [s tn thr]. simpl in *. rewrite Hrule. by rewrite Ht.
      + apply elem_of_group_keys. rewrite <- Hk. by apply list_elem_of_fmap_2. }
  split; [exact Hchar|]. split; [|split; [apply NoDup_min_allowed_keys|done]].
  intros r Hr. destruct (group_max_is_Some _ _ Hr) as [m Hm].
  exists (Threshold.mk (Stats.season r) (Stats.tournament r)
            (_calc_min_games_to_include_team m)).
  split; [|done]. apply Hchar. exists m. split; [|apply Hrule].
  by apply group_max_spec.
Qed.

(** C2. For every table and every floor, a combination is emitted exactly
    when it comes from a row that clears the floor and clears the threshold
    derived from its group's [max_games], where [max_games] is taken over
    the rows that remain after the floor filter. *)
Theorem combos_floor_then_threshold (games_stats : list Stats.t)
    (min_num_games : Z) (c : Combo.t) :
  c ∈ _calc_team_season_tournament_combos games_stats min_num_games ↔
  ∃ r m, r ∈ games_stats ∧ combo_of r = c ∧
         min_num_games ≤ Stats.num_rounds r ∧
         is_max_games (above_floor min_num_games games_stats)
           (season_tournament r) m ∧
         _calc_min_games_to_include_team m ≤ Stats.num_rounds r.
Proof.
  rewrite combos_elem_of. split.
  - intros (r & Hr & Hc & Hq).
    destruct (group_max_is_Some _ _ Hr) as [m Hm].
    apply group_max_spec in Hm.
    rewrite (threshold_of_spec _ _ _ Hm) in Hq.
    unfold above_floor in Hr. apply list_elem_of_filter in Hr as [Hf Hr].
    by exists r, m.
  - intros (r & m & Hr & Hc & Hf & Hm & Hq). exists r.
    split; [by apply list_elem_of_filter|]. split; [done|].
    by rewrite (threshold_of_spec _ _ _ Hm).
Qed.

(** C3, as the code has it. For every table and every floor the output is
    sorted ascending by (season, tournament, team); the filter does not
    deduplicate, and its output has no duplicate (tournament, season, team)
    triple, and is then strictly ascending, whenever the input has no
    repeated (team, tournament, season) row. *)
Theorem combos_sorted_and_distinct (games_stats : list Stats.t)
    (min_num_games : Z) :
  let out := _calc_team_season_tournament_combos games_stats min_num_games in
  StronglySorted combo_le out ∧
  (NoDup (stats_key <$> games_stats) → NoDup out ∧ StronglySorted combo_lt out).
Proof.
  simpl. split; [apply combos_sorted|]. intros Hnd.
  pose proof (combos_NoDup _ min_num_games Hnd) as Hout.
  split; [done|]. apply sorted_NoDup_strict; [apply combos_sorted|done].
Qed.

Lemma combos_sorted_and_distinct_witness :
  let out := _calc_team_season_tournament_combos stats_one_and_three 1 in
  NoDup out ∧ StronglySorted combo_lt out.
Proof.
  apply (combos_sorted_and_distinct stats_one_and_three 1).
  by_evaluation.
Defined.

(** C3, as stated, fails: a repeated input row that qualifies is emitted
    twice. *)
Lemma combos_repeated_row_emitted_twice :
  let out := _calc_team_season_tournament_combos stats_repeated_row 1 in
  out = [Combo.mk "T1" "2020" "A"; Combo.mk "T1" "2020" "A"] ∧ ¬ NoDup out.
Proof.
  assert (_calc_team_season_tournament_combos stats_repeated_row 1
          = [Combo.mk "T1" "2020" "A"; Combo.mk "T1" "2020" "A"]) as ->
    by (vm_compute; reflexivity).
  simpl. split; [done|]. intros [Hx _]%NoDup_cons. apply Hx. left.
Qed.

(** C5. For a fixed table and floors [f1 <= f2], the filter with floor [f2]
    emits no more combinations than with floor [f1]. *)
Theorem combos_floor_monotone (games_stats : list Stats.t) (f1 f2 : Z) :
  f1 ≤ f2 →
  (length (_calc_team_season_tournament_combos games_stats f2) ≤
   length (_calc_team_season_tournament_combos games_stats f1))%nat.
Proof.
  intros Hf. rewrite !combos_rows, !length_fmap, !filter_above_floor.
  apply length_filter_impl.
  intros r Hr [Hq Hfr]. split; [|lia].
  unfold threshold_of in *.
  rewrite (group_max_floor games_stats f1 f2 r Hf); [done|].
  by apply list_elem_of_filter.
Qed.

Lemma combos_floor_monotone_witness :
  (length (_calc_team_season_tournament_combos stats_one_and_three 2) ≤
   length (_calc_team_season_tournament_combos stats_one_and_three 1))%nat.
Proof. apply (combos_floor_monotone stats_one_and_three 1 2). lia. Defined.

(** ** The participation analysis *)

Lemma num_games_stats_unfold listing :
  _get_num_games_stats listing =
  (λ k : string * (string * string),
     Stats.mk k.1 k.2.1 k.2.2
       (nunique (TeamRound.round
                 <$> filter (λ r, team_tournament_season r = k) (team_df listing))))
  <$> group_keys team_tournament_season_compare
        (team_tournament_season <$> team_df listing).
Proof.
  unfold _get_num_games_stats, groupby. fold (team_df listing).
  by rewrite <- list_fmap_compose.
Qed.

Lemma num_games_stats_keys listing :
  stats_key <$> _get_num_games_stats listing =
  group_keys team_tournament_season_compare
    (team_tournament_season <$> team_df listing).
Proof.
  rewrite num_games_stats_unfold, <- list_fmap_compose.
  rewrite <- (list_fmap_id (group_keys _ _)) at 2.
  apply list_fmap_ext. by intros _ [t [tn s]] _.
Qed.

Lemma elem_of_team_df listing team tournament season round :
  TeamRound.mk team tournament season round ∈ team_df listing ↔
  ∃ g, g ∈ listing ∧ played_in team tournament season g ∧ Game.round g = round.
Proof.
  unfold team_df, played_in. rewrite elem_of_app, !list_elem_of_fmap. split.
  - intros [(g & Heq & Hg)|(g & Heq & Hg)]; exists g; simplify_eq; tauto.
  - intros (g & Hg & (<- & <- & [<-|<-]) & <-); [left|right]; by exists g.
Qed.

Lemma team_df_key listing team tournament season :
  (team, (tournament, season)) ∈ team_tournament_season <$> team_df listing ↔
  ∃ g, g ∈ listing ∧ played_in team tournament season g.
Proof.
  rewrite list_elem_of_fmap. split.
  - intros ([t tn s r] & Heq & Hin). unfold team_tournament_season in Heq.
    simpl in Heq. simplify_eq.
    apply elem_of_team_df in Hin as (g & Hg & Hp & _). by exists g.
  - intros (g & Hg & Hp).
    exists (TeamRound.mk team tournament season (Game.round g)).
    split; [done|]. apply elem_of_team_df. by exists g.
Qed.

Lemma nunique_size (col : list Z) :
  nunique col = Z.of_nat (size (list_to_set (C:=gset Z) col)).
Proof.
  unfold nunique. f_equal.
  rewrite <- (size_list_to_set (C:=gset Z) (remove_dups col))
    by apply NoDup_remove_dups.
  f_equal. apply set_eq. intros x.
  by rewrite !elem_of_list_to_set, elem_of_remove_dups.
Qed.

Lemma team_df_rounds listing team tournament season :
  nunique (TeamRound.round
           <$> filter (λ r, team_tournament_season r = (team, (tournament, season)))
                 (team_df listing)) =
  Z.of_nat (size (rounds_played team tournament season listing)).
Proof.
  rewrite nunique_size. do 2 f_equal. unfold rounds_played.
  apply set_eq. intros x. rewrite !elem_of_list_to_set, !list_elem_of_fmap. split.
  - intros ([t tn s r] & -> & [Hk Hin]%list_elem_of_filter).
    unfold team_tournament_season in Hk. simpl in Hk. simplify_eq.
    apply elem_of_team_df in Hin as (g & Hg & Hp & <-).
    exists g. split; [done|]. by apply list_elem_of_filter.
  - intros (g & -> & [Hp Hg]%list_elem_of_filter).
    exists (TeamRound.mk team tournament season (Game.round g)).
    split; [done|]. apply list_elem_of_filter. split; [done|].
    apply elem_of_team_df. by exists g.
Qed.

Lemma num_games_stats_elem_of listing team tournament season n :
  Stats.mk team tournament season n ∈ _get_num_games_stats listing ↔
  (∃ g, g ∈ listing ∧ played_in team tournament season g) ∧
  n = Z.of_nat (size (rounds_played team tournament season listing)).
Proof.
  rewrite num_games_stats_unfold, list_elem_of_fmap.
  rewrite <- team_df_key, <- team_df_rounds. split.
  - intros ([t [tn s]] & Heq & Hk). simpl in Heq. simplify_eq.
    split; [|done]. by apply elem_of_group_keys in Hk.
  - intros [Hk ->]. exists (team, (tournament, season)).
    split; [done|]. by apply elem_of_group_keys.
Qed.

Lemma num_games_stats_NoDup listing :
  NoDup (stats_key <$> _get_num_games_stats listing).
Proof. rewrite num_games_stats_keys. apply NoDup_group_keys. Qed.

Lemma num_games_stats_positive listing r :
  r ∈ _get_num_games_stats listing → 1 ≤ Stats.num_rounds r.
Proof.
  destruct r as [team tournament season n].
  intros [(g & Hg & Hp) ->]%num_games_stats_elem_of. simpl.
  assert (Game.round g ∈ rounds_played team tournament season listing) as Hin.
  { unfold rounds_played. apply elem_of_list_to_set, list_elem_of_fmap_2.
    by apply list_elem_of_filter. }
  assert (size (rounds_played team tournament season listing) ≠ 0%nat); [|lia].
  intros Hz%size_empty_inv. apply Hz in Hin.
  exact (not_elem_of_empty (C:=gset Z) _ Hin).
Qed.

(** ** Claims about the participation analysis *)

(** C4. For every game listing the participation analysis produces one row
    per distinct (team, tournament, season): a row is present exactly for
    the triples of a team that appeared as home or away side, and its
    [num_rounds] is the number of distinct round identifiers in which it
    appeared. A team that appears as home and as away side in one round has
    that round counted once, and an empty listing yields an empty result. *)
Theorem num_games_stats_counts_distinct_rounds (listing : list Game.t) :
  let out := _get_num_games_stats listing in
  NoDup (stats_key <$> out) ∧
  (∀ team tournament season n,
     Stats.mk team tournament season n ∈ out ↔
     (∃ g, g ∈ listing ∧ played_in team tournament season g) ∧
     n = Z.of_nat (size (rounds_played team tournament season listing))) ∧
  Stats.mk "X" "T1" "2020" 1 ∈ _get_num_games_stats listing_same_round_twice ∧
  _get_num_games_stats [] = [].
Proof.
  simpl. split; [apply num_games_stats_NoDup|].
  split; [apply num_games_stats_elem_of|]. split; [|done].
  by_evaluation.
Qed.

(** C10. For every game listing the participation table has at most one
    row per (team, tournament, season) and every row has [num_rounds >= 1];
    hence the table the pipeline hands to the qualification filter has no
    repeated triple, and neither has the filter's output, although the
    filter itself does not deduplicate. *)
Theorem num_games_stats_unique_and_positive (listing : list Game.t) :
  let games_stats := _get_num_games_stats listing in
  NoDup (stats_key <$> games_stats) ∧
  (∀ r, r ∈ games_stats → 1 ≤ Stats.num_rounds r) ∧
  (∀ min_num_games,
     NoDup (_calc_team_season_tournament_combos games_stats min_num_games)).
Proof.
  simpl. split; [apply num_games_stats_NoDup|].
  split; [apply num_games_stats_positive|].
  intros f. apply combos_NoDup, num_games_stats_NoDup.
Qed.

(** ** The exception monad *)

Lemma mapM_Ok_length {A B} (f : A → result B) l ys :
  mapM f l = Ok ys → length ys = length l.
Proof.
  revert ys. induction l as [|x l IH]; intros ys; simpl.
  - by intros [= <-].
  - destruct (f x) as [y|e]; simpl; [|done].
    destruct (mapM f l) as [k|e]; simpl; [|done].
    intros [= <-]. simpl. f_equal. by apply IH.
Qed.

Lemma mapM_raises {A B} (f : A → result B) l :
  raises (mapM f l) ↔ ∃ x, x ∈ l ∧ raises (f x).
Proof.
  induction l as [|x l IH]; simpl.
  - split; [by intros [e ?]|]. intros (x & Hx & _). by apply elem_of_nil in Hx.
  - destruct (f x) as [y|e] eqn:Ex; simpl.
    + destruct (mapM f l) as [k|e]; simpl.
      * split; [by intros [e ?]|]. intros (x' & [->|Hx']%elem_of_cons & [e He]).
        -- congruence.
        -- assert (raises (Ok k)) as [e' ?]; [|done].
           apply IH. exists x'. split; [done|]. by exists e.
      * split; [|by exists e]. intros _.
        destruct IH as [IH _]. destruct IH as (x' & Hx' & Hr); [by exists e|].
        exists x'. split; [by right|done].
    + split; [|by exists e]. intros _. exists x. split; [left|].
      rewrite Ex. by exists e.
Qed.

Lemma elem_of_zip_r {A B} (l1 : list A) (l2 : list B) y :
  length l1 = length l2 → y ∈ l2 → ∃ x, (x, y) ∈ zip l1 l2.
Proof.
  revert l1. induction l2 as [|b l2 IH]; intros [|a l1] Hlen Hy; simplify_eq/=.
  - by apply elem_of_nil in Hy.
  - apply elem_of_cons in Hy as [->|Hy].
    + exists a. left.
    + destruct (IH l1 Hlen Hy) as [x Hx]. exists x. by right.
Qed.

(** ** Claims about result classification and the loader *)

Lemma calc_result_raises score :
  raises (_calc_result score) ↔ malformed score.
Proof.
  unfold _calc_result, malformed.
  destruct (mapM (λ x, int (strip x)) (split ":" score)) as [scores|e] eqn:E.
  - pose proof (mapM_Ok_length _ _ _ E) as Hlen. split.
    + intros Hr. right. rewrite <- Hlen.
      destruct scores as [|s0 [|s1 scores]]; simpl; [lia|lia|].
      exfalso. destruct Hr as [e He]. simpl in He.
      destruct (s0 >? s1); [done|]. by destruct (s0 =? s1).
    + intros [(p & Hp & Hnone)|Hshort].
      * assert (raises (mapM (λ x, int (strip x)) (split ":" score))) as [e He].
        { apply mapM_raises. exists p. split; [done|].
          unfold int. rewrite Hnone. by eexists. }
        congruence.
      * rewrite <- Hlen in Hshort.
        destruct scores as [|s0 [|s1 scores]]; simpl in *; [by eexists|by eexists|lia].
  - split; [|by exists e]. intros _. left.
    assert (raises (mapM (λ x, int (strip x)) (split ":" score))) as Hr
      by (rewrite E; by exists e).
    apply mapM_raises in Hr as (p & Hp & [e' He']). exists p. split; [done|].
    unfold int in He'. by destruct (int_literal (strip p)).
Qed.

Section loader_facts.
Context (to_datetime : string → result Z).

Lemma read_game_listing_missing fs path :
  fs !! path = None →
  ∃ msg, read_game_listing to_datetime fs path = Raise (FileNotFoundError msg).
Proof.
  intros Hnone. unfold read_game_listing, read_csv_listing. rewrite Hnone.
  by eexists.
Qed.

Lemma read_game_listing_malformed fs path rows r :
  fs !! path = Some (GameListingCsv rows) → r ∈ rows →
  malformed (RawGame.score r) →
  raises (read_game_listing to_datetime fs path).
Proof.
  intros Hfile Hr Hbad. unfold read_game_listing, read_csv_listing.
  rewrite Hfile. simpl.
  destruct (mapM (λ r0, to_datetime (RawGame.game_date r0)) rows)
    as [dates|e] eqn:Edates; simpl; [|by exists e].
  apply mapM_Ok_length in Edates.
  destruct (elem_of_zip_r dates rows r Edates Hr) as [d Hd].
  set (sorted := sort_values Z.compare fst (zip dates rows)).
  assert (raises (mapM (λ r0 : Z * RawGame.t, _calc_result (RawGame.score r0.2))
                    sorted)) as [e He].
  { apply mapM_raises. exists (d, r). split.
    - unfold sorted. by rewrite sort_values_Permutation.
    - by apply calc_result_raises. }
  rewrite He. by exists e.
Qed.

Lemma generate_raises_unchanged glp otp fsp min_num_games start_rating fs :
  raises (read_game_listing to_datetime fs glp) →
  ∃ e, generate_team_season_combos_and_init_team_ratings to_datetime
         glp otp fsp min_num_games start_rating fs = (Raise e, fs).
Proof.
  intros [e He]. unfold generate_team_season_combos_and_init_team_ratings.
  rewrite He. destruct e; by eexists.
Qed.
End loader_facts.

Lemma parse_pieces_cases (pieces : list string) :
  ((∃ p, p ∈ pieces ∧ int_literal (strip p) = None) ∧
   mapM (λ x, int (strip x)) pieces = Raise ValueError) ∨
  ((∀ p, p ∈ pieces → is_Some (int_literal (strip p))) ∧
   ∃ zs, mapM (λ x, int (strip x)) pieces = Ok zs ∧
         Forall2 (λ p z, int_literal (strip p) = Some z) pieces zs).
Proof.
  induction pieces as [|p pieces IH].
  - right. split; [by intros p ?%elem_of_nil|]. exists []. split; [done|constructor].
  - cbn [mapM].
    destruct (int_literal (strip p)) as [z|] eqn:Ep;
      [assert (int (strip p) = Ok z) as -> by (unfold int; by rewrite Ep)
      |assert (int (strip p) = Raise ValueError) as ->
         by (unfold int; by rewrite Ep)].
    + destruct IH as [[(q & Hq & Hnone) ->]|[Hall (zs & -> & HF)]].
      * left. split; [|done]. exists q. split; [by right|done].
      * right. split.
        -- intros q [->|Hq]%elem_of_cons; [by rewrite Ep|by apply Hall].
        -- exists (z :: zs). split; [done|by constructor].
    + left. split; [|done]. exists p. split; [left|done].
Qed.

Lemma calc_result_cases (score : string) :
  ((∃ p, p ∈ split ":" score ∧ int_literal (strip p) = None) ∧
   _calc_result score = Raise ValueError) ∨
  ((∀ p, p ∈ split ":" score → is_Some (int_literal (strip p))) ∧
   (length (split ":" score) < 2)%nat ∧
   _calc_result score = Raise IndexError) ∨
  (∃ a b rest x y,
     split ":" score = a :: b :: rest ∧
     int_literal (strip a) = Some x ∧ int_literal (strip b) = Some y ∧
     (∀ p, p ∈ rest → is_Some (int_literal (strip p))) ∧
     _calc_result score = Ok (classify x y)).
Proof.
  unfold _calc_result.
  destruct (parse_pieces_cases (split ":" score))
    as [[Hbad ->]|[Hall (zs & -> & HF)]]; [by left|right].
  destruct HF as [|a x pieces zs Ha HF]; [left; simpl; auto with lia|].
  destruct HF as [|b y pieces zs Hb HF]; [left; simpl; auto with lia|].
  right. exists a, b, pieces, x, y. split; [done|]. split; [done|]. split; [done|].
  split; [intros p Hp; apply Hall; by do 2 right|]. simpl.
  unfold classify. destruct (Z.gtb_spec x y), (Z.eqb_spec x y);
    repeat case_decide; done || lia.
Qed.

(** C7, as the code has it. On a text score, result classification
    raises [ValueError] exactly when some piece between colons is no
    integer, and [IndexError] exactly when every piece is an integer and
    there are fewer than two; it raises in no other case, and a score of
    two or more pieces that are all integers is classified by comparing
    its first two. A score of the first two kinds in a game listing makes
    the loader raise, and the pipeline stops with an exception before it
    writes any file. *)
Theorem malformed_score_is_hard_error (score : string) :
  (raises (_calc_result score) ↔ malformed score) ∧
  (_calc_result score = Raise ValueError ↔
   ∃ p, p ∈ split ":" score ∧ int_literal (strip p) = None) ∧
  (_calc_result score = Raise IndexError ↔
   (∀ p, p ∈ split ":" score → is_Some (int_literal (strip p))) ∧
   (length (split ":" score) < 2)%nat) ∧
  (∀ a b rest x y,
     split ":" score = a :: b :: rest →
     int_literal (strip a) = Some x → int_literal (strip b) = Some y →
     (∀ p, p ∈ rest → is_Some (int_literal (strip p))) →
     _calc_result score = Ok (classify x y)) ∧
  ∀ to_datetime fs glp otp fsp min_num_games start_rating rows r,
    malformed score →
    fs !! glp = Some (GameListingCsv rows) → r ∈ rows →
    RawGame.score r = score →
    raises (read_game_listing to_datetime fs glp) ∧
    ∃ e, generate_team_season_combos_and_init_team_ratings to_datetime
           glp otp fsp min_num_games start_rating fs = (Raise e, fs).
Proof.
  split; [apply calc_result_raises|].
  assert (∀ p, p ∈ split ":" score → int_literal (strip p) = None →
            (∀ q, q ∈ split ":" score → is_Some (int_literal (strip q))) → False)
    as Hexcl.
  { intros p Hp Hnone Hall. destruct (Hall p Hp) as [z Hz]. congruence. }
  split; [|split; [|split]].
  - split; [|intros Hbad].
    + destruct (calc_result_cases score)
        as [[Hbad _]|[(_ & _ & ->)|(a & b & rest & x & y & _ & _ & _ & _ & ->)]];
        done.
    + destruct (calc_result_cases score)
        as [[_ ->]|[(Hall & _)|(a & b & rest & x & y & Hsplit & Ha & Hb & Hrest & _)]];
        [done|..]; destruct Hbad as (p & Hp & Hnone); exfalso.
      * by apply (Hexcl p).
      * apply (Hexcl p Hp Hnone). rewrite Hsplit.
        intros q [->|[->|Hq]%elem_of_cons]%elem_of_cons; [by eexists..|by apply Hrest].
  - split; [|intros [Hall Hshort]].
    + destruct (calc_result_cases score)
        as [[_ ->]|[(Hall & Hshort & _)|(a & b & rest & x & y & _ & _ & _ & _ & ->)]];
        done.
    + destruct (calc_result_cases score)
        as [[(p & Hp & Hnone) _]|[(_ & _ & ->)|(a & b & rest & x & y & Hsplit & _)]];
        [by destruct (Hexcl p Hp Hnone)|done|].
      rewrite Hsplit in Hshort. simpl in Hshort. lia.
  - intros a b rest x y Hsplit Ha Hb Hrest.
    destruct (calc_result_cases score)
      as [[(p & Hp & Hnone) _]|[(_ & Hshort & _)
         |(a' & b' & rest' & x' & y' & Hsplit' & Ha' & Hb' & _ & ->)]].
    + exfalso. apply (Hexcl p Hp Hnone). rewrite Hsplit.
      intros q [->|[->|Hq]%elem_of_cons]%elem_of_cons; [by eexists..|by apply Hrest].
    + rewrite Hsplit in Hshort. simpl in Hshort. lia.
    + rewrite Hsplit in Hsplit'. simplify_eq. done.
  - intros to_datetime fs glp otp fsp mn sr rows r Hbad Hfile Hr <-.
    assert (raises (read_game_listing to_datetime fs glp)) as Hraise
      by by eapply read_game_listing_malformed.
    split; [done|]. by apply generate_raises_unchanged.
Qed.

Lemma malformed_score_is_hard_error_witness :
  raises (_calc_result "- : -") ∧
  ∃ e, generate_team_season_combos_and_init_team_ratings same_day
         "games.csv" "combos.csv" "first.csv" None None fs_missing_score
       = (Raise e, fs_missing_score).
Proof.
  assert (malformed "- : -") as Hbad.
  { left. exists "- ". split; [|reflexivity].
    by_evaluation. }
  destruct (malformed_score_is_hard_error "- : -") as (Hiff & _ & _ & _ & Hrun).
  split; [by apply Hiff|].
  eapply (Hrun same_day fs_missing_score "games.csv" "combos.csv" "first.csv"
            None None _
            (RawGame.mk "2020-03-01" (IntCell 2020) "T1" 1 "A" "B" "- : -")).
  - exact Hbad.
  - reflexivity.
  - left.
  - reflexivity.
Defined.

(** C7, as stated, fails: a score of three integers does not split into
    exactly two integers, and it is classified by its first two. *)
Lemma three_piece_score_is_classified :
  ¬ splits_into_two_integers "1:2:3" ∧ _calc_result "1:2:3" = Ok win2.
Proof.
  split; [|reflexivity]. intros (a & b & x & y & Hsplit & _). vm_compute in Hsplit.
  discriminate.
Qed.

(** ** Claims about the pipeline entry point *)

(** C9. If the game-listing file does not exist, the pipeline entry point
    raises [FileNotFoundError] whose message names the path, and it leaves
    the file system as it found it: nothing is written. *)
Theorem missing_listing_raises (to_datetime : string → result Z)
    (games_list_path output_team_season_path first_season_path : string)
    (min_num_games : option Z) (start_rating : option Q) (fs : filesystem) :
  fs !! games_list_path = None →
  generate_team_season_combos_and_init_team_ratings to_datetime
    games_list_path output_team_season_path first_season_path
    min_num_games start_rating fs
  = (Raise (FileNotFoundError ("File not found: " +:+ games_list_path)), fs).
Proof.
  intros Hnone. unfold generate_team_season_combos_and_init_team_ratings.
  by destruct (read_game_listing_missing to_datetime fs _ Hnone) as [msg ->].
Qed.

Lemma missing_listing_raises_witness :
  generate_team_season_combos_and_init_team_ratings same_day
    "absent.csv" "combos.csv" "first.csv" None None fs_two_tournaments
  = (Raise (FileNotFoundError "File not found: absent.csv"), fs_two_tournaments).
Proof.
  apply (missing_listing_raises same_day "absent.csv" "combos.csv" "first.csv"
           None None fs_two_tournaments).
  reflexivity.
Defined.

Lemma first_season_spec combos season :
  series_min String.compare (Combo.season <$> combos) = Some season ↔
  is_first_season combos season.
Proof.
  rewrite (series_min_spec String.compare). unfold is_first_season.
  split; intros [Hin Hle]; (split; [done|]).
  - intros c Hc. apply Hle. by apply list_elem_of_fmap_2.
  - intros x (c & -> & Hc)%list_elem_of_fmap. by apply Hle.
Qed.

Lemma first_season_teams_unfold combos start_rating season :
  is_first_season combos season →
  first_season_teams combos start_rating =
  (λ c, TeamRating.mk (Combo.team c) start_rating)
  <$> filter (λ c, Combo.season c = season) combos.
Proof.
  intros Hfirst%first_season_spec. unfold first_season_teams. rewrite Hfirst.
  rewrite <- list_fmap_compose. f_equal.
  apply list_filter_iff. intros c. split; [by intros [= ->]|by intros ->].
Qed.

Lemma first_season_teams_empty combos start_rating :
  (∀ season, ¬ is_first_season combos season) →
  first_season_teams combos start_rating = [].
Proof.
  intros Hnone. unfold first_season_teams.
  destruct (series_min String.compare (Combo.season <$> combos)) as [s|] eqn:E.
  - by apply first_season_spec, Hnone in E.
  - induction combos as [|c combos IH]; [done|]. done.
Qed.

(** C6, as the code has it. The initial-rating step selects every
    qualified combination of the minimum season, whatever its tournament,
    and writes one (team, rating) row for each, without deduplicating by
    team: the teams of the table are exactly the teams of the earliest
    season, and a team qualified in several tournaments of that season has
    one row per tournament. Every row carries the start rating the caller
    gave, 2000 when the caller gave none. *)
Theorem first_season_teams_spec (combos : list Combo.t) (start_rating : Q) :
  let out := first_season_teams combos start_rating in
  (∀ row, row ∈ out → TeamRating.rating row = start_rating) ∧
  (∀ team, team ∈ TeamRating.team <$> out ↔
           ∃ c, c ∈ combos ∧ Combo.team c = team ∧
                is_first_season combos (Combo.season c)) ∧
  (∀ season, is_first_season combos season →
     TeamRating.team <$> out =
     Combo.team <$> filter (λ c, Combo.season c = season) combos) ∧
  (∀ to_datetime glp otp fsp min_num_games rating fs listing,
     read_game_listing to_datetime fs glp = Ok listing →
     (generate_team_season_combos_and_init_team_ratings to_datetime
        glp otp fsp min_num_games rating fs).2 !! fsp =
     Some (RatingsCsv
             (first_season_teams
                (_calc_team_season_tournament_combos
                   (_get_num_games_stats listing) (default 1 min_num_games))
                (default 2000%Q rating)))).
Proof.
  simpl. split; [|split; [|split]].
  - intros row. unfold first_season_teams.
    by intros (t & -> & _)%list_elem_of_fmap.
  - intros team. split.
    + unfold first_season_teams at 1.
      rewrite <- !list_fmap_compose.
      intros (c & -> & [Hs Hc]%list_elem_of_filter)%list_elem_of_fmap.
      exists c. split; [done|]. split; [done|]. by apply first_season_spec.
    + intros (c & Hc & <- & Hfirst).
      rewrite (first_season_teams_unfold _ _ _ Hfirst), <- list_fmap_compose.
      apply (list_elem_of_fmap_2 (λ c, Combo.team c)).
      by apply list_elem_of_filter.
  - intros season Hfirst.
    rewrite (first_season_teams_unfold _ _ _ Hfirst), <- list_fmap_compose.
    done.
  - intros to_datetime glp otp fsp mn rating fs listing Hread.
    unfold generate_team_season_combos_and_init_team_ratings.
    rewrite Hread. simpl. by rewrite lookup_insert_eq.
Qed.

Lemma first_season_teams_spec_witness :
  TeamRating.team <$> first_season_teams combos_two_tournaments 1500 =
  ["A"; "B"; "A"; "C"].
Proof.
  destruct (first_season_teams_spec combos_two_tournaments 1500)
    as (_ & _ & Hrows & _).
  rewrite (Hrows "2020"); [reflexivity|].
  split; [by_evaluation|].
  apply Forall_forall. by_evaluation.
Defined.

(** C6, as stated, fails: the pipeline writes team A twice when it
    qualified in two tournaments of the earliest season. *)
Lemma first_season_team_written_twice :
  (generate_team_season_combos_and_init_team_ratings same_day
     "games.csv" "combos.csv" "first.csv" None None fs_two_tournaments).2
    !! "first.csv" =
  Some (RatingsCsv
          [TeamRating.mk "A" 2000; TeamRating.mk "B" 2000;
           TeamRating.mk "A" 2000; TeamRating.mk "C" 2000]) ∧
  ¬ NoDup (TeamRating.team
           <$> [TeamRating.mk "A" 2000; TeamRating.mk "B" 2000;
                TeamRating.mk "A" 2000; TeamRating.mk "C" 2000]).
Proof.
  split; [by vm_compute|].
  intros [Hx _]%NoDup_cons. apply Hx. right. left.
Qed.

(** ** The rating aggregation *)

Lemma filter_fmap_comm {A B} (f : A → B) (P : B → Prop)
    `{∀ y, Decision (P y)} (l : list A) :
  filter P (f <$> l) = f <$> filter (λ x, P (f x)) l.
Proof.
  induction l as [|x l IH]; [done|].
  rewrite fmap_cons, !filter_cons, IH. by destruct (decide (P (f x))).
Qed.

Lemma transform_mean_spec {R} (key : R → string) (col : R → option Q) rows :
  transform_mean key col rows =
  (λ r, series_mean (col <$> filter (λ r', key r' = key r) rows)) <$> rows.
Proof.
  unfold transform_mean. apply list_fmap_ext. intros _ r Hr%list_elem_of_lookup_2.
  set (means := (λ g : string * list R, (g.1, series_mean (col <$> g.2)))
                <$> groupby String.compare key rows).
  set (m := (key r, series_mean (col <$> filter (λ r', key r' = key r) rows))).
  assert (head (filter (λ x : string * option Q, x.1 = m.1) means) = Some m) as Hm;
    [|by (transitivity (Some m ≫= snd); [f_equal; exact Hm|])].
  apply (head_filter_key fst).
  - unfold means. rewrite <- list_fmap_compose.
    rewrite (list_fmap_ext _ fst (groupby String.compare key rows))
      by by intros _ [] _.
    apply NoDup_groupby_keys.
  - unfold means, groupby. rewrite <- list_fmap_compose.
    apply list_elem_of_fmap. exists (key r). split; [done|].
    apply elem_of_group_keys. by apply list_elem_of_fmap_2.
Qed.

Lemma head_filter_map_to_list (dict : gmap string Q) team :
  head (filter (λ kv : string * Q, kv.1 = team) (map_to_list dict)) =
  (λ rating, (team, rating)) <$> dict !! team.
Proof.
  destruct (dict !! team) as [rating|] eqn:E; simpl.
  - apply (head_filter_key fst (map_to_list dict) (team, rating)).
    + apply NoDup_fst_map_to_list.
    + by apply elem_of_map_to_list.
  - destruct (filter _ (map_to_list dict)) as [|[k v] l] eqn:Ef; [done|].
    assert ((k, v) ∈ filter (λ kv : string * Q, kv.1 = team) (map_to_list dict))
      as [Hk Hin]%list_elem_of_filter by (rewrite Ef; left).
    simpl in Hk. subst k. apply elem_of_map_to_list in Hin. congruence.
Qed.

(** With a text season column and a non-empty mapping, the aggregation
    gives every row of the earliest season the rounded mean of the
    ratings of its tournament. *)
Lemma avg_rating_text_seasons (elo_ratings_dict : gmap string Q)
    (team_seasons : list (TeamSeason.t string)) :
  elo_ratings_dict ≠ ∅ →
  save_prepare_season_initial_ratings elo_ratings_dict team_seasons =
  Ok ((λ r, AvgRating.mk (TeamSeason.team r)
              (tournament_mean elo_ratings_dict (earliest_rows team_seasons)
                 (TeamSeason.tournament r)))
      <$> earliest_rows team_seasons).
Proof.
  intros Hne. unfold save_prepare_season_initial_ratings.
  fold (earliest_rows team_seasons). set (rows := earliest_rows team_seasons).
  rewrite decide_False by by rewrite map_to_list_empty_iff.
  rewrite (merge_left_unique TeamSeason.team fst rows (map_to_list elo_ratings_dict))
    by apply NoDup_fst_map_to_list.
  unfold season_number, object_season. simpl. f_equal.
  set (merged := _ <$> rows).
  rewrite transform_mean_spec, !zip_with_fmap_r, zip_with_diag.
  unfold merged.
  rewrite <- list_fmap_compose. apply list_fmap_ext. intros _ r _. simpl.
  unfold tournament_mean. do 3 f_equal.
  rewrite (filter_fmap_comm _ (λ r', TeamSeason.tournament r'.1 = TeamSeason.tournament r)).
  rewrite <- list_fmap_compose. apply list_fmap_ext. intros _ r' _. simpl.
  rewrite head_filter_map_to_list. by destruct (elo_ratings_dict !! _).
Qed.

(** C8 at the numeric-season table. With ratings {A: 1900, B: 2100} and
    the tournaments T1 = {A, B}, T2 = {A} of season 2020, read as an
    integer column, the aggregation raises [ValueError]: the call of line
    63 averages the season column as well and the two-column result cannot
    be assigned to the single column. With text season labels the same
    scenario gives 2000 to both teams of T1 and 1900 to team A of T2. *)
Theorem avg_rating_numeric_season_raises :
  save_prepare_season_initial_ratings ratings_A_B team_seasons_year
  = Raise ValueError ∧
  save_prepare_season_initial_ratings ratings_A_B team_seasons_text
  = Ok [AvgRating.mk "A" (Some 2000%Q); AvgRating.mk "B" (Some 2000%Q);
        AvgRating.mk "A" (Some 1900%Q)].
Proof. split; vm_compute; reflexivity. Qed.

(** * Further properties of the code *)

(** ** The qualification filter *)

#[global] Instance combo_le_antisym : AntiSymm (=) combo_le.
Proof.
  intros a b Hab Hba.
  assert (combo_key a = combo_key b) as Heq
    by by apply (cmp_le_antisym season_tournament_team_compare).
  destruct a, b. unfold combo_key in Heq. simpl in Heq. by simplify_eq.
Qed.

Lemma is_max_games_perm games_stats games_stats' key m :
  games_stats ≡ₚ games_stats' →
  is_max_games games_stats key m ↔ is_max_games games_stats' key m.
Proof.
  intros Hperm. unfold is_max_games. split.
  - intros [(r & Hr & Hk & Hm) Hle]. split.
    + exists r. by rewrite <- Hperm.
    + intros r' Hr'. apply Hle. by rewrite Hperm.
  - intros [(r & Hr & Hk & Hm) Hle]. split.
    + exists r. by rewrite Hperm.
    + intros r' Hr'. apply Hle. by rewrite <- Hperm.
Qed.

Lemma threshold_of_perm games_stats games_stats' r :
  games_stats ≡ₚ games_stats' →
  threshold_of games_stats r = threshold_of games_stats' r.
Proof.
  intros Hperm. unfold threshold_of. f_equal. apply option_eq. intros m.
  by rewrite !group_max_spec, (is_max_games_perm _ _ _ _ Hperm).
Qed.

Lemma threshold_of_bounds games_stats r :
  1 ≤ threshold_of games_stats r ≤ 2.
Proof.
  unfold threshold_of, _calc_min_games_to_include_team.
  destruct (group_max _ _) as [m|]; simpl; [|lia].
  destruct (m <=? 2); lia.
Qed.

(** X1. The output of the qualification filter does not depend on the
    order of the input rows: two tables with the same rows in any order
    give the same output table. *)
Theorem combos_input_order_irrelevant (games_stats games_stats' : list Stats.t)
    (min_num_games : Z) :
  games_stats ≡ₚ games_stats' →
  _calc_team_season_tournament_combos games_stats min_num_games =
  _calc_team_season_tournament_combos games_stats' min_num_games.
Proof.
  intros Hperm.
  apply (StronglySorted_unique combo_le); [apply combos_sorted..|].
  rewrite !combos_rows.
  assert (above_floor min_num_games games_stats
          ≡ₚ above_floor min_num_games games_stats') as Hfloor
    by (unfold above_floor; by rewrite Hperm).
  rewrite (list_filter_iff _
             (λ r, threshold_of (above_floor min_num_games games_stats') r
                   ≤ Stats.num_rounds r)).
  - by rewrite Hfloor.
  - intros r. by rewrite (threshold_of_perm _ _ r Hfloor).
Qed.

Lemma combos_input_order_irrelevant_witness :
  _calc_team_season_tournament_combos stats_one_and_three 1 =
  _calc_team_season_tournament_combos (reverse stats_one_and_three) 1.
Proof.
  apply (combos_input_order_irrelevant stats_one_and_three
           (reverse stats_one_and_three) 1).
  symmetry. apply reverse_Permutation.
Defined.

(** X2. With a floor of 2 or more the derived threshold removes nothing:
    the output holds exactly the combinations of the rows that clear the
    floor, each as often as it occurs there. *)
Theorem combos_floor_two_subsumes_threshold (games_stats : list Stats.t)
    (min_num_games : Z) :
  2 ≤ min_num_games →
  _calc_team_season_tournament_combos games_stats min_num_games ≡ₚ
  combo_of <$> above_floor min_num_games games_stats.
Proof.
  intros Hf. rewrite combos_rows. f_equiv.
  set (rows := above_floor min_num_games games_stats).
  assert (∀ l : list Stats.t, (∀ r, r ∈ l → min_num_games ≤ Stats.num_rounds r) →
            filter (λ r, threshold_of rows r ≤ Stats.num_rounds r) l = l) as Hall.
  { induction l as [|r l IH]; intros Hl; [done|].
    rewrite filter_cons, decide_True.
    - f_equal. apply IH. intros r' Hr'. apply Hl. by right.
    - pose proof (threshold_of_bounds rows r).
      assert (min_num_games ≤ Stats.num_rounds r) by (apply Hl; left). lia. }
  rewrite Hall; [done|]. intros r Hr. unfold rows, above_floor in Hr.
  by apply list_elem_of_filter in Hr as [? _].
Qed.

Lemma combos_floor_two_subsumes_threshold_witness :
  _calc_team_season_tournament_combos stats_one_and_three 2 ≡ₚ
  combo_of <$> above_floor 2 stats_one_and_three.
Proof.
  apply (combos_floor_two_subsumes_threshold stats_one_and_three 2). lia.
Defined.

(** X3. When every row of the table has at least one round, no group is
    lost to the derived threshold: for every row that clears the floor, a
    row of the same (season, tournament) group with at least as many
    rounds is emitted. *)
Theorem combos_keep_every_group (games_stats : list Stats.t)
    (min_num_games : Z) (r : Stats.t) :
  (∀ r', r' ∈ games_stats → 1 ≤ Stats.num_rounds r') →
  r ∈ games_stats → min_num_games ≤ Stats.num_rounds r →
  ∃ r', r' ∈ games_stats ∧ season_tournament r' = season_tournament r ∧
        Stats.num_rounds r ≤ Stats.num_rounds r' ∧
        combo_of r' ∈ _calc_team_season_tournament_combos games_stats min_num_games.
Proof.
  intros Hpos Hr Hf.
  assert (r ∈ above_floor min_num_games games_stats) as Hr'
    by by apply list_elem_of_filter.
  destruct (group_max_is_Some _ _ Hr') as [m Hm].
  apply group_max_spec in Hm as Hmax.
  destruct Hmax as [(r' & Hin' & Hk' & Hnum') Hle].
  exists r'. pose proof Hin' as Hin.
  apply list_elem_of_filter in Hin as [Hf' Hin].
  split; [done|]. split; [done|]. split; [rewrite Hnum'; by apply Hle|].
  apply combos_elem_of. exists r'. split; [done|]. split; [done|].
  unfold threshold_of. rewrite Hk', Hm. simpl.
  unfold _calc_min_games_to_include_team.
  specialize (Hpos r' Hin). destruct (Z.leb_spec m 2); lia.
Qed.

Lemma combos_keep_every_group_witness :
  ∃ r', r' ∈ stats_one_and_three ∧
        season_tournament r' = season_tournament (Stats.mk "A" "T1" "2020" 1) ∧
        Stats.num_rounds (Stats.mk "A" "T1" "2020" 1) ≤ Stats.num_rounds r' ∧
        combo_of r' ∈ _calc_team_season_tournament_combos stats_one_and_three 1.
Proof.
  apply (combos_keep_every_group stats_one_and_three 1
           (Stats.mk "A" "T1" "2020" 1)).
  - apply Forall_forall. by_evaluation.
  - left.
  - simpl. lia.
Defined.

(** X4. Raising the floor only removes combinations: every combination
    emitted with the higher floor is emitted with the lower floor. *)
Theorem combos_floor_antitone (games_stats : list Stats.t) (f1 f2 : Z)
    (c : Combo.t) :
  f1 ≤ f2 →
  c ∈ _calc_team_season_tournament_combos games_stats f2 →
  c ∈ _calc_team_season_tournament_combos games_stats f1.
Proof.
  intros Hf. rewrite !combos_elem_of. intros (r & Hr & Hc & Hq).
  exists r. split; [|split; [done|]].
  - unfold above_floor in *. apply list_elem_of_filter in Hr as [? ?].
    apply list_elem_of_filter. split; [lia|done].
  - unfold threshold_of in *.
    by rewrite (group_max_floor games_stats f1 f2 r Hf Hr).
Qed.

Lemma combos_floor_antitone_witness :
  Combo.mk "T1" "2020" "B" ∈ _calc_team_season_tournament_combos stats_one_and_three 1.
Proof.
  apply (combos_floor_antitone stats_one_and_three 1 3); [lia|].
  by_evaluation.
Defined.

(** ** The participation analysis *)

Section sorted_keys.
Context {K : Type} `{EqDecision K}.
Context (cmp : K → K → comparison) `{!Comparator cmp}.

Lemma group_keys_same_elements (ks ks' : list K) :
  (∀ k, k ∈ ks ↔ k ∈ ks') → group_keys cmp ks = group_keys cmp ks'.
Proof.
  intros Hsame. apply (StronglySorted_unique (cmp_le cmp));
    [apply StronglySorted_group_keys; apply _..|].
  apply NoDup_Permutation; [apply NoDup_group_keys..|].
  intros k. by rewrite !elem_of_group_keys.
Qed.

Lemma StronglySorted_strict (l : list K) :
  StronglySorted (cmp_le cmp) l → NoDup l →
  StronglySorted (λ a b, cmp a b = Lt) l.
Proof.
  induction 1 as [|x l Hs IH Hall]; [constructor|].
  intros [Hx Hnd]%NoDup_cons. constructor; [by apply IH|].
  apply Forall_forall. intros y Hy.
  rewrite Forall_forall in Hall. specialize (Hall y Hy).
  apply (cmp_le_lt_or_eq cmp) in Hall as [Hlt| ->]; done.
Qed.
End sorted_keys.

Lemma num_games_stats_team_df listing listing' :
  team_df listing ≡ₚ team_df listing' →
  _get_num_games_stats listing = _get_num_games_stats listing'.
Proof.
  intros Hperm. rewrite !num_games_stats_unfold.
  rewrite (group_keys_same_elements team_tournament_season_compare
             (team_tournament_season <$> team_df listing)
             (team_tournament_season <$> team_df listing'))
    by (intros k; by rewrite Hperm).
  apply list_fmap_ext. intros _ k _. f_equal.
  rewrite !nunique_size. do 2 f_equal. apply set_eq. intros x.
  rewrite !elem_of_list_to_set. by rewrite Hperm.
Qed.

(** X5. The participation table does not depend on the order of the
    games in the listing. *)
Theorem num_games_stats_listing_order_irrelevant (listing listing' : list Game.t) :
  listing ≡ₚ listing' →
  _get_num_games_stats listing = _get_num_games_stats listing'.
Proof.
  intros Hperm. apply num_games_stats_team_df. unfold team_df.
  by rewrite Hperm.
Qed.

Lemma num_games_stats_listing_order_irrelevant_witness :
  _get_num_games_stats listing_same_round_twice =
  _get_num_games_stats (reverse listing_same_round_twice).
Proof.
  apply (num_games_stats_listing_order_irrelevant listing_same_round_twice
           (reverse listing_same_round_twice)).
  symmetry. apply reverse_Permutation.
Defined.

(** X6. Home and away side count alike: exchanging the two sides of every
    game leaves the participation table unchanged. *)
Theorem num_games_stats_sides_symmetric (listing : list Game.t) :
  _get_num_games_stats (swap_sides <$> listing) = _get_num_games_stats listing.
Proof.
  apply num_games_stats_team_df. unfold team_df.
  rewrite <- !list_fmap_compose. apply Permutation_app_comm.
Qed.

(** X7. The rows of the participation table are strictly ascending by
    (team, tournament, season), the order of the group keys. *)
Theorem num_games_stats_sorted (listing : list Game.t) :
  StronglySorted
    (λ a b, team_tournament_season_compare (stats_key a) (stats_key b) = Lt)
    (_get_num_games_stats listing).
Proof.
  apply (StronglySorted_of_fmap stats_key
           (λ a b, team_tournament_season_compare a b = Lt)).
  rewrite num_games_stats_keys.
  apply (StronglySorted_strict team_tournament_season_compare).
  - apply StronglySorted_group_keys; apply _.
  - apply NoDup_group_keys.
Qed.

(** X8. A team's [num_rounds] never exceeds the number of distinct rounds
    played in its tournament and season. *)
Theorem num_games_stats_at_most_scheduled (listing : list Game.t) (r : Stats.t) :
  r ∈ _get_num_games_stats listing →
  Stats.num_rounds r ≤
  Z.of_nat (size (rounds_scheduled (Stats.tournament r) (Stats.season r) listing)).
Proof.
  destruct r as [team tournament season n]. simpl.
  intros [_ ->]%num_games_stats_elem_of.
  apply inj_le, subseteq_size. intros x.
  unfold rounds_played, rounds_scheduled.
  rewrite !elem_of_list_to_set, !list_elem_of_fmap.
  intros (g & -> & [Hp Hg]%list_elem_of_filter). exists g. split; [done|].
  apply list_elem_of_filter. split; [|done].
  destruct Hp as (? & ? & _). done.
Qed.

Lemma num_games_stats_at_most_scheduled_witness :
  Stats.num_rounds (Stats.mk "X" "T1" "2020" 1) ≤
  Z.of_nat (size (rounds_scheduled "T1" "2020" listing_same_round_twice)).
Proof.
  apply (num_games_stats_at_most_scheduled listing_same_round_twice
           (Stats.mk "X" "T1" "2020" 1)).
  by_evaluation.
Defined.

(** ** The listing loader *)

Lemma mapM_Ok_Forall2 {A B} (f : A → result B) l ys :
  mapM f l = Ok ys → Forall2 (λ x y, f x = Ok y) l ys.
Proof.
  revert ys. induction l as [|x l IH]; intros ys; simpl.
  - intros [= <-]. constructor.
  - destruct (f x) as [y|e] eqn:Ex; simpl; [|done].
    destruct (mapM f l) as [k|e]; simpl; [|done].
    intros [= <-]. constructor; [done|]. by apply IH.
Qed.

Lemma mapM_Ok_or_raises {A B} (f : A → result B) l :
  (∃ ys, mapM f l = Ok ys) ↔ ∀ x, x ∈ l → ¬ raises (f x).
Proof.
  split.
  - intros [ys Hys] x Hx Hr.
    assert (raises (mapM f l)) as [e He] by (apply mapM_raises; by exists x).
    congruence.
  - intros Hno. destruct (mapM f l) as [ys|e] eqn:E; [by exists ys|].
    assert (raises (mapM f l)) as (x & Hx & Hr)%mapM_raises
      by (rewrite E; by exists e).
    by destruct (Hno x Hx).
Qed.

Lemma Forall2_zip_elem_of {A B} (P : A → B → Prop) (l : list A) (k : list B) x y :
  Forall2 P l k → (y, x) ∈ zip k l → P x y ∧ x ∈ l.
Proof.
  induction 1 as [|a b l k Hab Hlk IH]; simpl.
  - by intros ?%elem_of_nil.
  - intros [[= -> ->]|Hin]%elem_of_cons.
    + split; [done|left].
    + destruct (IH Hin). split; [done|by right].
Qed.

Lemma Forall2_zip_with_elem_of {A B C} (P : A → B → Prop) (F : A → B → C)
    (l : list A) (k : list B) :
  Forall2 P l k →
  (∀ z, z ∈ zip_with F l k → ∃ x y, x ∈ l ∧ P x y ∧ z = F x y) ∧
  (∀ x, x ∈ l → ∃ y, P x y ∧ F x y ∈ zip_with F l k).
Proof.
  induction 1 as [|a b l k Hab Hlk [IH1 IH2]]; simpl.
  - split; [by intros z ?%elem_of_nil|by intros x ?%elem_of_nil].
  - split.
    + intros z [->|Hz]%elem_of_cons.
      * exists a, b. split; [left|done].
      * destruct (IH1 z Hz) as (x & y & Hx & HP & ->).
        exists x, y. split; [by right|done].
    + intros x [->|Hx]%elem_of_cons.
      * exists b. split; [done|left].
      * destruct (IH2 x Hx) as (y & HP & Hin). exists y. split; [done|by right].
Qed.

Lemma zip_with_fmap_fst {A B C D} (F : A → B → C) (p : C → D) (q : A → D)
    (l : list A) (k : list B) :
  (∀ x y, p (F x y) = q x) → length l = length k →
  p <$> zip_with F l k = q <$> l.
Proof.
  intros Hpq. revert k. induction l as [|a l IH]; intros [|b k] Hlen;
    simplify_eq/=; [done|]. rewrite Hpq. f_equal. by apply IH.
Qed.

Section loader_success.
Context (to_datetime : string → result Z).

Lemma read_game_listing_Ok fs path listing :
  read_game_listing to_datetime fs path = Ok listing →
  ∃ rows dates results,
    fs !! path = Some (GameListingCsv rows) ∧
    Forall2 (λ r d, to_datetime (RawGame.game_date r) = Ok d) rows dates ∧
    Forall2 (λ (dr : Z * RawGame.t) res, _calc_result (RawGame.score dr.2) = Ok res)
      (sort_values Z.compare fst (zip dates rows)) results ∧
    listing = zip_with (λ (dr : Z * RawGame.t) res, game_of dr.1 dr.2 res)
                (sort_values Z.compare fst (zip dates rows)) results.
Proof.
  unfold read_game_listing, read_csv_listing.
  destruct (fs !! path) as [[rows|?|?]|] eqn:Hfile; simpl; try done.
  destruct (mapM (λ r, to_datetime (RawGame.game_date r)) rows)
    as [dates|e] eqn:Edates; simpl; [|done].
  destruct (mapM _ (sort_values Z.compare fst (zip dates rows)))
    as [results|e] eqn:Eres; simpl; [|done].
  intros [= <-]. exists rows, dates, results.
  split; [done|]. split; [by apply mapM_Ok_Forall2|].
  split; [by apply mapM_Ok_Forall2 in Eres|done].
Qed.

(** X9. When the loader succeeds it keeps every row of the file: the
    listing has as many rows as the file, is ascending by game date, every
    row comes from a file row with its date parsed, its season converted
    to text and its result classified from its score, and every file row
    is represented. *)
Theorem read_game_listing_keeps_rows fs path rows listing :
  fs !! path = Some (GameListingCsv rows) →
  read_game_listing to_datetime fs path = Ok listing →
  length listing = length rows ∧
  StronglySorted Z.le (Game.game_date <$> listing) ∧
  (∀ g, g ∈ listing →
        ∃ r d res, r ∈ rows ∧ to_datetime (RawGame.game_date r) = Ok d ∧
                   _calc_result (RawGame.score r) = Ok res ∧ g = game_of d r res) ∧
  (∀ r, r ∈ rows →
        ∃ d res, to_datetime (RawGame.game_date r) = Ok d ∧
                 _calc_result (RawGame.score r) = Ok res ∧ game_of d r res ∈ listing).
Proof.
  intros Hfile (rows' & dates & results & Hfile' & Hdates & Hres & ->)
    %read_game_listing_Ok.
  rewrite Hfile in Hfile'. simplify_eq.
  set (sorted := sort_values Z.compare fst (zip dates rows')) in *.
  pose proof (Forall2_length _ _ _ Hdates) as Hlen1.
  pose proof (Forall2_length _ _ _ Hres) as Hlen2.
  assert (length sorted = length rows') as Hlen3.
  { unfold sorted. rewrite sort_values_Permutation, length_zip_with. lia. }
  destruct (Forall2_zip_with_elem_of _
              (λ (dr : Z * RawGame.t) res, game_of dr.1 dr.2 res) _ _ Hres)
    as [Hfrom Hto].
  split; [rewrite length_zip_with; lia|]. split; [|split].
  - rewrite (zip_with_fmap_fst _ Game.game_date fst) by done.
    apply (sort_values_sorted Z.compare fst).
  - intros g ([d r] & res & Hin & Hcalc & ->)%Hfrom.
    unfold sorted in Hin. rewrite sort_values_Permutation in Hin.
    destruct (Forall2_zip_elem_of _ _ _ _ _ Hdates Hin) as [Hd Hr].
    by exists r, d, res.
  - intros r Hr.
    destruct (elem_of_zip_r dates rows' r (eq_sym Hlen1) Hr) as [d Hin].
    destruct (Forall2_zip_elem_of _ _ _ _ _ Hdates Hin) as [Hd _].
    assert ((d, r) ∈ sorted) as Hs
      by (unfold sorted; by rewrite sort_values_Permutation).
    destruct (Hto _ Hs) as (res & Hcalc & Hg). by exists d, res.
Qed.

(** X10. The loader succeeds exactly when the path holds a game listing
    in which every date parses and no score is malformed. Scores are text
    of code points below 256, where whitespace and integers are Python's
    ([isspace] counts U+0085 and U+00A0). *)
Theorem read_game_listing_succeeds_iff fs path :
  (∃ listing, read_game_listing to_datetime fs path = Ok listing) ↔
  ∃ rows, fs !! path = Some (GameListingCsv rows) ∧
          (∀ r, r ∈ rows → ¬ raises (to_datetime (RawGame.game_date r))) ∧
          (∀ r, r ∈ rows → ¬ malformed (RawGame.score r)).
Proof.
  split.
  - intros [listing Hread].
    pose proof Hread as (rows & dates & results & Hfile & Hdates & Hres & _)
      %read_game_listing_Ok.
    exists rows. split; [done|]. split.
    + intros r Hr [e He].
      apply list_elem_of_lookup in Hr as [i Hi].
      destruct (Forall2_lookup_l _ _ _ i r Hdates Hi) as (d & _ & Hd).
      congruence.
    + intros r Hr Hbad.
      assert (raises (read_game_listing to_datetime fs path)) as [e He]
        by by eapply read_game_listing_malformed.
      congruence.
  - intros (rows & Hfile & Hdates & Hscores).
    unfold read_game_listing, read_csv_listing. rewrite Hfile. simpl.
    destruct (proj2 (mapM_Ok_or_raises
                       (λ r, to_datetime (RawGame.game_date r)) rows) Hdates)
      as [dates Edates].
    rewrite Edates. simpl.
    pose proof (mapM_Ok_Forall2 _ _ _ Edates) as HF.
    destruct (proj2 (mapM_Ok_or_raises
                (λ dr : Z * RawGame.t, _calc_result (RawGame.score dr.2))
                (sort_values Z.compare fst (zip dates rows)))) as [results Eres].
    { intros [d r] Hin Hr. rewrite sort_values_Permutation in Hin.
      destruct (Forall2_zip_elem_of _ _ _ _ _ HF Hin) as [_ Hrow].
      apply (Hscores r Hrow). by apply calc_result_raises. }
    rewrite Eres. simpl. by eexists.
Qed.
End loader_success.

Lemma read_game_listing_keeps_rows_witness :
  length listing_two_tournaments = 2%nat ∧
  StronglySorted Z.le (Game.game_date <$> listing_two_tournaments).
Proof.
  destruct (read_game_listing_keeps_rows same_day fs_two_tournaments "games.csv"
              [RawGame.mk "2020-03-01" (IntCell 2020) "T1" 1 "A" "B" "1 : 0";
               RawGame.mk "2020-03-01" (IntCell 2020) "T2" 1 "A" "C" "2 : 2"]
              listing_two_tournaments)
    as (Hlen & Hsorted & _); [reflexivity|by vm_compute|].
  split; [exact Hlen|exact Hsorted].
Defined.

(** ** The filter on the participation table, and the pipeline *)

Lemma filter_ext_in {A} (P Q : A → Prop)
    `{∀ x, Decision (P x), ∀ x, Decision (Q x)} (l : list A) :
  (∀ x, x ∈ l → P x ↔ Q x) → filter P l = filter Q l.
Proof.
  induction l as [|x l IH]; intros Hext; [done|].
  rewrite !filter_cons, IH by (intros y Hy; apply Hext; by right).
  destruct (decide (P x)) as [HP|HP], (decide (Q x)) as [HQ|HQ]; try done;
    exfalso; apply (Hext x) in HP || apply (Hext x) in HQ; try done; left.
Qed.

(** X11. A row with at least two rounds that clears the floor is always
    emitted, and a row is emitted only if it has at least one round and
    clears the floor: the derived threshold never asks for more than two
    rounds and never for less than one. *)
Theorem combos_threshold_between_one_and_two (games_stats : list Stats.t)
    (min_num_games : Z) :
  (∀ r, r ∈ games_stats → min_num_games ≤ Stats.num_rounds r →
        2 ≤ Stats.num_rounds r →
        combo_of r ∈ _calc_team_season_tournament_combos games_stats min_num_games) ∧
  (∀ c, c ∈ _calc_team_season_tournament_combos games_stats min_num_games →
        ∃ r, r ∈ games_stats ∧ combo_of r = c ∧
             min_num_games ≤ Stats.num_rounds r ∧ 1 ≤ Stats.num_rounds r).
Proof.
  split.
  - intros r Hr Hf H2. apply combos_elem_of. exists r.
    split; [by apply list_elem_of_filter|]. split; [done|].
    pose proof (threshold_of_bounds (above_floor min_num_games games_stats) r). lia.
  - intros c (r & Hr & Hc & Hq)%combos_elem_of.
    apply list_elem_of_filter in Hr as [Hf Hr]. exists r.
    pose proof (threshold_of_bounds (above_floor min_num_games games_stats) r).
    repeat split; [done..|lia].
Qed.

Lemma combos_floor_below_one (games_stats : list Stats.t) (min_num_games : Z) :
  (∀ r, r ∈ games_stats → 1 ≤ Stats.num_rounds r) → min_num_games ≤ 1 →
  _calc_team_season_tournament_combos games_stats min_num_games =
  _calc_team_season_tournament_combos games_stats 1.
Proof.
  intros Hpos Hf. unfold _calc_team_season_tournament_combos.
  rewrite (filter_ext_in (λ r, min_num_games ≤ Stats.num_rounds r)
             (λ r, 1 ≤ Stats.num_rounds r) games_stats); [done|].
  intros r Hr. specialize (Hpos r Hr). lia.
Qed.

(** X12. On a participation table the analysis produced, a floor below
    the default of 1 changes nothing: lines 36-37 give the same
    combinations for every floor of at most 1. *)
Theorem pipeline_floor_below_one (listing : list Game.t) (min_num_games : Z) :
  min_num_games ≤ 1 →
  _calc_team_season_tournament_combos (_get_num_games_stats listing) min_num_games =
  _calc_team_season_tournament_combos (_get_num_games_stats listing) 1.
Proof.
  intros Hf. apply combos_floor_below_one; [|done].
  apply num_games_stats_positive.
Qed.

Lemma pipeline_floor_below_one_witness :
  _calc_team_season_tournament_combos
    (_get_num_games_stats listing_same_round_twice) 0 =
  _calc_team_season_tournament_combos
    (_get_num_games_stats listing_same_round_twice) 1.
Proof. apply (pipeline_floor_below_one listing_same_round_twice 0). lia. Defined.

(** X13. With a floor of at most 1, every tournament and season in which
    a game of the listing was played has a qualified combination: lines
    36-37 never drop a whole tournament-season. *)
Theorem pipeline_keeps_every_tournament_season (listing : list Game.t)
    (min_num_games : Z) (g : Game.t) :
  min_num_games ≤ 1 → g ∈ listing →
  ∃ c, c ∈ _calc_team_season_tournament_combos
              (_get_num_games_stats listing) min_num_games ∧
       Combo.tournament c = Game.tournament g ∧ Combo.season c = Game.season g.
Proof.
  intros Hf Hg.
  set (r := Stats.mk (Game.home_team g) (Game.tournament g) (Game.season g)
              (Z.of_nat (size (rounds_played (Game.home_team g) (Game.tournament g)
                                 (Game.season g) listing)))).
  assert (r ∈ _get_num_games_stats listing) as Hr.
  { apply num_games_stats_elem_of. split; [|done]. exists g.
    split; [done|]. unfold played_in. auto. }
  pose proof (num_games_stats_positive _ _ Hr) as Hpos.
  destruct (combos_keep_every_group (_get_num_games_stats listing)
              min_num_games r) as (r' & Hr' & Hk & _ & Hin).
  - apply num_games_stats_positive.
  - done.
  - lia.
  - exists (combo_of r'). split; [done|].
    unfold season_tournament in Hk. simpl in *. by simplify_eq.
Qed.

Lemma pipeline_keeps_every_tournament_season_witness :
  ∃ c, c ∈ _calc_team_season_tournament_combos
              (_get_num_games_stats listing_same_round_twice) 1 ∧
       Combo.tournament c = "T1" ∧ Combo.season c = "2020".
Proof.
  apply (pipeline_keeps_every_tournament_season listing_same_round_twice 1
           (Game.mk 0 "2020" "T1" 1 "X" "Y" "1 : 0" win1)); [lia|left].
Defined.

(** ** The rating aggregation *)

Lemma series_mean_None (col : list (option Q)) :
  series_mean col = None ↔ ∀ x, x ∈ col → x = None.
Proof.
  unfold series_mean. induction col as [|[q|] col IH]; simpl.
  - split; [by intros _ x ?%elem_of_nil|done].
  - split; [done|]. intros Hall. by specialize (Hall (Some q) ltac:(left)).
  - rewrite IH. split.
    + intros Hall x [->|Hx]%elem_of_cons; [done|by apply Hall].
    + intros Hall x Hx. apply Hall. by right.
Qed.

(** X15. Under pandas 1.5 to 2.3, with a text season column and a
    non-empty mapping, the aggregation does not raise; it writes one row
    per row of the earliest season, in order and with its team; two rows
    of the same tournament carry the same rating; and the rating of a row
    is missing exactly when the mapping rates no team of its tournament
    in that season. *)
Theorem avg_rating_shared_by_tournament (elo_ratings_dict : gmap string Q)
    (team_seasons : list (TeamSeason.t string)) :
  elo_ratings_dict ≠ ∅ →
  ∃ out,
    save_prepare_season_initial_ratings elo_ratings_dict team_seasons = Ok out ∧
    AvgRating.team <$> out = TeamSeason.team <$> earliest_rows team_seasons ∧
    (∀ r1 r2 o1 o2 i j,
       earliest_rows team_seasons !! i = Some r1 → out !! i = Some o1 →
       earliest_rows team_seasons !! j = Some r2 → out !! j = Some o2 →
       TeamSeason.tournament r1 = TeamSeason.tournament r2 →
       AvgRating.rating o1 = AvgRating.rating o2) ∧
    (∀ r o i,
       earliest_rows team_seasons !! i = Some r → out !! i = Some o →
       AvgRating.rating o = None ↔
       ∀ r', r' ∈ earliest_rows team_seasons →
             TeamSeason.tournament r' = TeamSeason.tournament r →
             elo_ratings_dict !! TeamSeason.team r' = None).
Proof.
  intros Hne. eexists. split; [by apply avg_rating_text_seasons|].
  set (rows := earliest_rows team_seasons).
  assert (∀ i r o, rows !! i = Some r →
            ((λ r, AvgRating.mk (TeamSeason.team r)
                     (tournament_mean elo_ratings_dict rows
                        (TeamSeason.tournament r))) <$> rows) !! i = Some o →
            AvgRating.rating o =
            tournament_mean elo_ratings_dict rows (TeamSeason.tournament r))
    as Hrow.
  { intros i r o Hr. rewrite list_lookup_fmap, Hr. by intros [= <-]. }
  split; [|split].
  - rewrite <- list_fmap_compose. by apply list_fmap_ext.
  - intros r1 r2 o1 o2 i j Hr1 Ho1 Hr2 Ho2 Ht.
    rewrite (Hrow _ _ _ Hr1 Ho1), (Hrow _ _ _ Hr2 Ho2). by rewrite Ht.
  - intros r o i Hr Ho. rewrite (Hrow _ _ _ Hr Ho). unfold tournament_mean.
    rewrite fmap_None, series_mean_None. split.
    + intros Hall r' Hr' Ht. apply Hall.
      apply (list_elem_of_fmap_2 (λ r, elo_ratings_dict !! TeamSeason.team r)).
      by apply list_elem_of_filter.
    + intros Hall x (r' & -> & [Ht Hr']%list_elem_of_filter)%list_elem_of_fmap.
      by apply Hall.
Qed.

Lemma avg_rating_shared_by_tournament_witness :
  ∃ out,
    save_prepare_season_initial_ratings ratings_A_B team_seasons_text = Ok out ∧
    AvgRating.team <$> out
    = TeamSeason.team <$> earliest_rows team_seasons_text.
Proof.
  destruct (avg_rating_shared_by_tournament ratings_A_B team_seasons_text)
    as (out & Hout & Hteams & _); [by_evaluation|].
  exists out. split; [exact Hout|exact Hteams].
Defined.

(** X16. With an integer season column the aggregation raises
    [ValueError] for every non-empty mapping and every non-empty table:
    the call of line 63 averages the season column too, and the
    two-column result cannot be assigned to one column. *)
Theorem avg_rating_integer_seasons_raise (elo_ratings_dict : gmap string Q)
    (team_seasons : list (TeamSeason.t Z)) :
  elo_ratings_dict ≠ ∅ → team_seasons ≠ [] →
  save_prepare_season_initial_ratings elo_ratings_dict team_seasons
  = Raise ValueError.
Proof.
  intros Hne _. unfold save_prepare_season_initial_ratings.
  rewrite decide_False by by rewrite map_to_list_empty_iff.
  done.
Qed.

Lemma avg_rating_integer_seasons_raise_witness :
  save_prepare_season_initial_ratings
    ratings_A_B [TeamSeason.mk "T1" 1999 "B"; TeamSeason.mk "T1" 2001 "A"]
  = Raise ValueError.
Proof.
  apply (avg_rating_integer_seasons_raise ratings_A_B
           [TeamSeason.mk "T1" 1999 "B"; TeamSeason.mk "T1" 2001 "A"]).
  - by_evaluation.
  - done.
Defined.

(** ** Loading ratings *)

Lemma dict_update_insert (d : list (string * Q)) k v :
  <[k := v]> (list_to_map (M:=gmap string Q)
                ((λ kv : string * Q, if decide (kv.1 = k) then (k, v) else kv) <$> d)) =
  <[k := v]> (list_to_map d).
Proof.
  induction d as [|[k' v'] d IH]; [done|].
  rewrite fmap_cons. simpl. destruct (decide (k' = k)) as [->|Hne]; simpl.
  - by rewrite !insert_insert_eq.
  - rewrite !(insert_insert_ne _ k k') by done. by rewrite IH.
Qed.

Lemma dict_update_lookup (d : list (string * Q)) k v :
  k ∈ d.*1 →
  list_to_map (M:=gmap string Q)
    ((λ kv : string * Q, if decide (kv.1 = k) then (k, v) else kv) <$> d) !! k
  = Some v.
Proof.
  induction d as [|[k' v'] d IH]; [by intros ?%elem_of_nil|].
  rewrite !fmap_cons. simpl. intros Hin.
  destruct (decide (k' = k)) as [->|Hne]; simpl.
  - by rewrite lookup_insert_eq.
  - rewrite lookup_insert_ne by done. apply IH.
    apply elem_of_cons in Hin as [?|?]; [congruence|done].
Qed.

Lemma dict_setitem_map d k v :
  list_to_map (M:=gmap string Q) (dict_setitem d k v) =
  <[k := v]> (list_to_map d).
Proof.
  unfold dict_setitem. destruct (decide (k ∈ d.*1)) as [Hin|Hin].
  - rewrite <- dict_update_insert. symmetry. apply insert_id.
    by apply dict_update_lookup.
  - by apply list_to_map_snoc.
Qed.

Lemma dict_setitem_keys d k v :
  (dict_setitem d k v).*1 = if decide (k ∈ d.*1) then d.*1 else d.*1 ++ [k].
Proof.
  unfold dict_setitem. destruct (decide (k ∈ d.*1)).
  - rewrite <- list_fmap_compose. apply list_fmap_ext. intros _ [k' v'] _. simpl.
    by destruct (decide (k' = k)) as [->|].
  - by rewrite fmap_app.
Qed.

Lemma to_dict_snoc rows row :
  to_dict (rows ++ [row]) =
  dict_setitem (to_dict rows) (TeamRating.team row) (TeamRating.rating row).
Proof. unfold to_dict. by rewrite foldl_snoc. Qed.

Lemma to_dict_NoDup rows : NoDup (to_dict rows).*1.
Proof.
  induction rows as [|row rows IH] using rev_ind; [constructor|].
  rewrite to_dict_snoc, dict_setitem_keys. case_decide; [done|].
  apply NoDup_app. split; [done|]. split; [|apply NoDup_singleton].
  by intros k Hk ->%list_elem_of_singleton.
Qed.

Lemma to_dict_lookup rows team :
  list_to_map (M:=gmap string Q) (to_dict rows) !! team =
  TeamRating.rating <$> last (filter (λ row, TeamRating.team row = team) rows).
Proof.
  induction rows as [|row rows IH] using rev_ind; [done|].
  rewrite to_dict_snoc, dict_setitem_map, filter_app, filter_cons, filter_nil.
  destruct (decide (TeamRating.team row = team)) as [<-|Hne].
  - by rewrite lookup_insert_eq, last_snoc.
  - by rewrite lookup_insert_ne, app_nil_r.
Qed.

(** X17. [load_elo_ratings] returns a mapping with distinct keys in which
    a team is present exactly when the file has a row for it, and in which
    the rating of a team is that of its last row in the file; a path that
    does not exist raises [FileNotFoundError]. *)
Theorem load_elo_ratings_last_row_wins (fs : filesystem) (path : string) :
  (fs !! path = None → ∃ msg, load_elo_ratings fs path = Raise (FileNotFoundError msg)) ∧
  (∀ rows, fs !! path = Some (RatingsCsv rows) →
     ∃ d, load_elo_ratings fs path = Ok d ∧ NoDup d.*1 ∧
          ∀ team, list_to_map (M:=gmap string Q) d !! team =
                  TeamRating.rating
                  <$> last (filter (λ row, TeamRating.team row = team) rows)).
Proof.
  unfold load_elo_ratings. split.
  - intros ->. by eexists.
  - intros rows ->. eexists. split; [done|].
    split; [apply to_dict_NoDup|apply to_dict_lookup].
Qed.

Lemma load_elo_ratings_last_row_wins_witness :
  ∃ d, load_elo_ratings {[ "elo.csv" := RatingsCsv ratings_rows_A_twice ]} "elo.csv"
       = Ok d ∧
       list_to_map (M:=gmap string Q) d !! "A" = Some 1950%Q.
Proof.
  destruct (load_elo_ratings_last_row_wins
              {[ "elo.csv" := RatingsCsv ratings_rows_A_twice ]} "elo.csv")
    as [_ Hrows].
  destruct (Hrows ratings_rows_A_twice) as (d & Hd & _ & Hlookup); [reflexivity|].
  exists d. split; [exact Hd|]. by rewrite Hlookup.
Defined.

(** ** Result classification on decimal scores *)

Lemma all_chars_app test a b :
  all_chars test (a +:+ b) = all_chars test a && all_chars test b.
Proof. induction a as [|c a IH]; simpl; [done|]. by rewrite IH, andb_assoc. Qed.

Lemma lstrip_spaces l s : all_chars isspace l → lstrip (l +:+ s) = lstrip s.
Proof.
  induction l as [|c l IH]; simpl; [done|].
  intros [Hc Hl]%andb_prop_elim. destruct (isspace c); [by apply IH|done].
Qed.

Lemma rstrip_spaces r : all_chars isspace r → rstrip r = EmptyString.
Proof.
  induction r as [|c r IH]; simpl; [done|].
  intros [Hc Hr]%andb_prop_elim. rewrite IH by done. by destruct (isspace c).
Qed.

Lemma rstrip_app_spaces s r : all_chars isspace r → rstrip (s +:+ r) = rstrip s.
Proof.
  intros Hr. induction s as [|c s IH]; simpl; [by apply rstrip_spaces|].
  by rewrite IH.
Qed.

Lemma plain_not_space c : plain c → isspace c = false.
Proof. unfold plain. by destruct (isspace c). Qed.

Lemma rstrip_plain s : all_chars plain s → rstrip s = s.
Proof.
  induction s as [|c s IH]; simpl; [done|].
  intros [Hc Hs]%andb_prop_elim. rewrite IH by done.
  destruct s; [|done]. by rewrite plain_not_space.
Qed.

Lemma strip_padded l s r :
  all_chars isspace l → all_chars isspace r → all_chars plain s →
  strip (l +:+ s +:+ r) = s.
Proof.
  intros Hl Hr Hs. unfold strip. rewrite lstrip_spaces by done.
  destruct s as [|c s].
  - simpl. clear Hs Hl.
    induction r as [|c r IH]; simpl; [done|]. simpl in Hr.
    apply andb_prop_elim in Hr as [Hc Hr]. destruct (isspace c); [by apply IH|done].
  - simpl in *. apply andb_prop_elim in Hs as [Hc Hs].
    rewrite (plain_not_space c Hc).
    change (String c (s +:+ r)) with (String c s +:+ r).
    rewrite rstrip_app_spaces by done. apply rstrip_plain. simpl.
    apply andb_prop_intro. done.
Qed.

Lemma split_no_colon s :
  all_chars (λ c, negb (Ascii.eqb c ":")) s → split ":" s = [s].
Proof.
  induction s as [|c s IH]; simpl; [done|].
  intros [Hc Hs]%andb_prop_elim. rewrite IH by done.
  by destruct (Ascii.eqb c ":").
Qed.

Lemma split_at_colon a b :
  all_chars (λ c, negb (Ascii.eqb c ":")) a →
  split ":" (a +:+ String ":" b) = a :: split ":" b.
Proof.
  induction a as [|c a IH]; simpl; [done|].
  intros [Hc Ha]%andb_prop_elim. rewrite IH by done.
  by destruct (Ascii.eqb c ":").
Qed.

Lemma all_chars_impl (P Q : ascii → bool) s :
  (∀ c, P c → Q c) → all_chars P s → all_chars Q s.
Proof.
  intros HPQ. induction s as [|c s IH]; simpl; [done|].
  intros [Hc Hs]%andb_prop_elim. apply andb_prop_intro. split; [by apply HPQ|by apply IH].
Qed.

Lemma space_not_colon c : isspace c → negb (Ascii.eqb c ":").
Proof.
  destruct (Ascii.eqb_spec c ":") as [->|]; [|done]. by vm_compute.
Qed.

Lemma plain_not_colon c : plain c → negb (Ascii.eqb c ":").
Proof. unfold plain. by intros [_ ?]%andb_prop_elim. Qed.

Lemma pretty_N_char_plain d : plain (pretty_N_char d).
Proof. unfold pretty_N_char. by repeat case_match. Qed.

Lemma pretty_N_char_digit d :
  (d < 10)%N → digit (pretty_N_char d) = Some (Z.of_N d).
Proof.
  intros Hd.
  assert (d = 0 ∨ d = 1 ∨ d = 2 ∨ d = 3 ∨ d = 4 ∨ d = 5 ∨ d = 6 ∨ d = 7
          ∨ d = 8 ∨ d = 9)%N as Hcases by lia.
  repeat (destruct Hcases as [->|Hcases]; [done|]). by subst.
Qed.

Lemma pretty_N_go_plain x s : all_chars plain s → all_chars plain (pretty_N_go x s).
Proof.
  revert s. induction (N.lt_wf_0 x) as [x _ IH]; intros s Hs.
  assert (x = 0 ∨ 0 < x)%N as [->|Hx] by lia; [done|].
  rewrite pretty_N_go_step by done. apply IH; [by apply N.div_lt|].
  simpl. apply andb_prop_intro. split; [apply pretty_N_char_plain|done].
Qed.

Lemma pretty_N_go_unsigned x s : (0 < x)%N → unsigned (pretty_N_go x s).
Proof.
  revert s. induction (N.lt_wf_0 x) as [x _ IH]; intros s Hx.
  rewrite pretty_N_go_step by done.
  destruct (N.eq_0_gt_0_cases (x `div` 10)) as [->|Hdiv].
  - rewrite pretty_N_go_0. simpl. unfold pretty_N_char.
    by repeat case_match.
  - apply IH; [by apply N.div_lt|done].
Qed.

Lemma pretty_N_go_digits x :
  (0 < x)%N →
  ∃ p : Z, ∀ acc after s,
    int_digits acc after (pretty_N_go x s) =
    int_digits (acc * p + Z.of_N x) true s.
Proof.
  induction (N.lt_wf_0 x) as [x _ IH]; intros Hx.
  assert (x `mod` 10 < 10)%N as Hmod by (apply N.mod_lt; lia).
  pose proof (N.div_mod x 10) as Hdm.
  destruct (N.eq_0_gt_0_cases (x `div` 10)) as [Hdiv|Hdiv].
  - exists 10. intros acc after s. rewrite pretty_N_go_step, Hdiv by done.
    rewrite pretty_N_go_0. simpl. rewrite pretty_N_char_digit by done.
    f_equal. lia.
  - destruct (IH (x `div` 10)%N) as [p Hp]; [by apply N.div_lt|done|].
    exists (10 * p). intros acc after s. rewrite pretty_N_go_step, Hp by done.
    simpl. rewrite pretty_N_char_digit by done. f_equal. lia.
Qed.

Lemma int_digits_pretty_N (n : N) : int_digits 0 false (pretty n) = Some (Z.of_N n).
Proof.
  unfold pretty, pretty_N. case_decide as Hn; [by subst|].
  destruct (pretty_N_go_digits n) as [p Hp]; [lia|]. rewrite Hp. simpl.
  f_equal; lia.
Qed.

Lemma pretty_N_plain (n : N) : all_chars plain (pretty n).
Proof.
  unfold pretty, pretty_N. case_decide; [done|]. by apply pretty_N_go_plain.
Qed.

Lemma pretty_N_unsigned (n : N) : unsigned (pretty n).
Proof.
  unfold pretty, pretty_N. case_decide; [done|]. apply pretty_N_go_unsigned. lia.
Qed.

Lemma pretty_Z_plain (z : Z) : all_chars plain (pretty z).
Proof.
  destruct z as [|q|q]; [done|apply pretty_N_plain|].
  unfold pretty, pretty_Z. simpl. apply pretty_N_plain.
Qed.

Lemma strip_plain s : all_chars plain s → strip s = s.
Proof.
  intros Hs. unfold strip. rewrite <- (rstrip_plain s Hs) at 2. f_equal.
  destruct s as [|c s]; [done|]. simpl in *.
  apply andb_prop_elim in Hs as [Hc _]. by rewrite plain_not_space.
Qed.

Lemma int_space_isspace c : int_space c = true → isspace c = true.
Proof. destruct c as [[] [] [] [] [] [] [] []]; done. Qed.

Lemma int_strip_plain s : all_chars plain s → int_rstrip (int_lstrip s) = s.
Proof.
  intros Hs.
  assert (∀ c, plain c → int_space c = false) as Hplain.
  { intros c Hc%plain_not_space. destruct (int_space c) eqn:E; [|done].
    apply int_space_isspace in E. congruence. }
  assert (int_lstrip s = s) as ->.
  { destruct s as [|c s]; [done|]. simpl in *.
    apply andb_prop_elim in Hs as [Hc _]. by rewrite Hplain. }
  induction s as [|c s IH]; simpl in *; [done|].
  apply andb_prop_elim in Hs as [Hc Hs]. rewrite IH by done.
  destruct s; [|done]. by rewrite Hplain.
Qed.

Lemma int_literal_unsigned s :
  unsigned s → all_chars plain s → int_literal s = int_digits 0 false s.
Proof.
  intros Hu Hs. unfold int_literal. rewrite int_strip_plain by done.
  destruct s as [|c s]; [done|]. destruct Hu as [Hminus Hplus].
  destruct c as [[] [] [] [] [] [] [] []]; done.
Qed.

(** The decimal text of an integer reads back as that integer. *)
Lemma int_literal_pretty (z : Z) : int_literal (pretty z) = Some z.
Proof.
  destruct z as [|q|q].
  - done.
  - change (pretty (Z.pos q)) with (pretty (N.pos q)).
    rewrite int_literal_unsigned
      by (apply pretty_N_unsigned || apply pretty_N_plain).
    apply (int_digits_pretty_N (N.pos q)).
  - unfold int_literal. rewrite int_strip_plain by apply pretty_Z_plain.
    change (pretty (Z.neg q)) with (String "-" (pretty (N.pos q))).
    lazy beta iota. by rewrite (int_digits_pretty_N (N.pos q)).
Qed.

Lemma int_strip_padded l r z :
  all_chars isspace l → all_chars isspace r →
  int (strip (l +:+ pretty z +:+ r)) = Ok z.
Proof.
  intros Hl Hr. rewrite strip_padded by (done || apply pretty_Z_plain).
  unfold int. by rewrite int_literal_pretty.
Qed.

(** X19. A score written as two decimal integers around one colon, with
    any whitespace around either number, is classified by comparing the
    two numbers: [win1] when the home number is larger, [draw] when they
    are equal, [win2] otherwise. *)
Theorem calc_result_decimal_scores (x y : Z) (l1 r1 l2 r2 : string) :
  all_chars isspace l1 → all_chars isspace r1 →
  all_chars isspace l2 → all_chars isspace r2 →
  _calc_result ((l1 +:+ pretty x +:+ r1) +:+ ":" +:+ (l2 +:+ pretty y +:+ r2))
  = Ok (classify x y).
Proof.
  intros Hl1 Hr1 Hl2 Hr2. unfold _calc_result.
  assert (∀ l r (z : Z), all_chars isspace l → all_chars isspace r →
            all_chars (λ c, negb (Ascii.eqb c ":")) (l +:+ pretty z +:+ r))
    as Hpiece.
  { intros l r z Hl Hr. rewrite !all_chars_app.
    repeat (apply andb_prop_intro; split).
    - by apply (all_chars_impl isspace), Hl; apply space_not_colon.
    - apply (all_chars_impl plain), pretty_Z_plain. apply plain_not_colon.
    - by apply (all_chars_impl isspace), Hr; apply space_not_colon. }
  change (":" +:+ (l2 +:+ pretty y +:+ r2))
    with (String ":" (l2 +:+ pretty y +:+ r2)).
  rewrite split_at_colon, split_no_colon by by apply Hpiece.
  simpl. rewrite !int_strip_padded by done. simpl.
  unfold classify. destruct (Z.gtb_spec x y), (Z.eqb_spec x y);
    repeat case_decide; done || lia.
Qed.

Lemma calc_result_decimal_scores_witness :
  _calc_result "3 :1" = Ok win1.
Proof.
  apply (calc_result_decimal_scores 3 1 "" space "" ""); done.
Defined.

(** X20. A score with two or more pieces that are all integers is
    classified by its first two pieces alone; further pieces are parsed
    and otherwise ignored. *)
Theorem calc_result_first_two_pieces (score a b : string) (rest : list string)
    (x y : Z) :
  split ":" score = a :: b :: rest →
  int_literal (strip a) = Some x → int_literal (strip b) = Some y →
  (∀ p, p ∈ rest → is_Some (int_literal (strip p))) →
  _calc_result score = Ok (classify x y).
Proof.
  intros Hsplit Ha Hb Hrest. unfold _calc_result. rewrite Hsplit. simpl.
  assert (int (strip a) = Ok x) as -> by (unfold int; by rewrite Ha).
  assert (int (strip b) = Ok y) as -> by (unfold int; by rewrite Hb).
  simpl.
  destruct (proj2 (mapM_Ok_or_raises (λ p, int (strip p)) rest)) as [zs ->].
  { intros p Hp [e He]. destruct (Hrest p Hp) as [z Hz].
    unfold int in He. by rewrite Hz in He. }
  simpl. unfold classify. destruct (Z.gtb_spec x y), (Z.eqb_spec x y);
    repeat case_decide; done || lia.
Qed.

Lemma calc_result_first_two_pieces_witness :
  _calc_result "2:1:7" = Ok win1.
Proof.
  apply (calc_result_first_two_pieces "2:1:7" "2" "1" ["7"] 2 1); try done.
  intros p ->%list_elem_of_singleton. by eexists.
Defined.
